(** * OPMW-Potassium: the connection, discovery and delivery core of [main.js]

    A shallow embedding of the socket code of [src/main.js]:
    [compressData], [promiseTimeout], [_connectAndSendInternal] and the IPC
    handlers ['check-port-status'] and ['auto-attach'].

    The code is event driven.  It is embedded as explicit state passing: the
    state of one invocation is a record (its socket, its promises, the place
    where its [async] function is suspended, what it has done so far), and the
    environment - the Node event loop with the socket, the timer and the zlib
    job - is a list of events.  Every event runs the handlers the code has
    registered for it, followed by the continuation of the [await] that the
    event unblocked.  Nothing is assumed about the order or the number of the
    events, so a statement over all event lists holds for every schedule.

    Two parts of the runtime are parameters of the sessions: the codec
    behind [zlib.deflate], and the synchronous validation in
    [net.Socket.connect], which throws for an argument that is no port.  The
    codec itself is not in the repository; where the specification speaks of
    it, it is the module [Zlib], modelled from the specification. *)

From Stdlib Require Import String Ascii List NArith ZArith Bool Lia.
From Stdlib.Strings Require Import Byte.
From Stdlib Require Import DecimalString.
Import ListNotations.
Local Open Scope list_scope.
Local Open Scope string_scope.

(** ** JavaScript values, promises and timers *)

Module JS.

(** The values the renderer can pass as [code]: a string, or nothing. *)
Inductive Value : Type :=
| Undefined
| Null
| Str (s : string).

(** ToBoolean. *)
Definition truthy (v : Value) : bool :=
  match v with
  | Str s => negb (s =? "")
  | Undefined | Null => false
  end.

(** [v !== s] for a string literal [s]. *)
Definition strict_neq (v : Value) (s : string) : bool :=
  match v with
  | Str s' => negb (s' =? s)
  | Undefined | Null => true
  end.

(** [Buffer.from(v, 'utf8')]; a string is held as its UTF-8 bytes. *)
Definition Buffer_from (v : Value) : list byte :=
  match v with
  | Str s => list_byte_of_string s
  | Undefined | Null => []
  end.

(** A promise settles at most once; an [Error] is kept as its [message]. *)
Inductive Promise (A : Type) : Type :=
| Pending
| Fulfilled (value : A)
| Rejected (message : string).
Arguments Pending {A}.
Arguments Fulfilled {A} value.
Arguments Rejected {A} message.

(** [resolve(v)] is [settle p (Fulfilled v)], [reject(e)] is
    [settle p (Rejected e.message)]: both do nothing on a settled promise. *)
Definition settle {A} (p outcome : Promise A) : Promise A :=
  match p with
  | Pending => outcome
  | _ => p
  end.

Definition settled {A} (p : Promise A) : bool :=
  match p with
  | Pending => false
  | _ => true
  end.

(** [Promise.race([p, q])], re-examined after each event: [r] is the race
    so far; it follows the first of [p], [q] to settle ([p] first on a tie). *)
Definition race {A} (r p q : Promise A) : Promise A :=
  settle r (settle p q).

(** A timer made by [setTimeout]. *)
Inductive Timer : Type :=
| Armed (ms : Z)
| Expired
| Cleared.

Definition clearTimeout (t : Timer) : Timer :=
  match t with
  | Armed _ => Cleared
  | _ => t
  end.

(** [s.startsWith(p)] and [s.includes(p)]. *)
Definition startsWith (s p : string) : bool := String.prefix p s.

Fixpoint includes (s p : string) : bool :=
  String.prefix p s ||
  match s with
  | EmptyString => false
  | String _ s' => includes s' p
  end.

(** A number inside a template literal. *)
Definition show (n : nat) : string :=
  NilEmpty.string_of_uint (Nat.to_uint n).

End JS.

(** ** [net.Socket] *)

Module Net.

Inductive EventName : Type := connect_ev | error_ev | timeout_ev.

Definition EventName_eqb (a b : EventName) : bool :=
  match a, b with
  | connect_ev, connect_ev | error_ev, error_ev | timeout_ev, timeout_ev => true
  | _, _ => false
  end.

(** What the socket emits: ['connect'], ['error'] with an error, ['timeout']. *)
Inductive Event : Type :=
| Connect
| Error (message : string)
| Timeout.

Definition name (e : Event) : EventName :=
  match e with
  | Connect => connect_ev
  | Error _ => error_ev
  | Timeout => timeout_ev
  end.

(** The error an event carries (only ['error'] has one). *)
Definition payload (e : Event) : string :=
  match e with
  | Error m => m
  | _ => ""
  end.

Section Socket.
(** [H] names the handlers (closures) of the program that owns the socket. *)
Variable H : Type.

Record Listener : Type := {
  event : EventName;
  once_only : bool;
  handler : H
}.

Record Socket : Type := {
  listeners : list Listener;
  connecting : option string;   (* the port [connect] was called with *)
  timeout : option Z;           (* [setTimeout] *)
  written : list (list byte);   (* the chunks handed to [write] *)
  ended : bool;                 (* [end] was called *)
  destroyed : bool              (* [destroy] was called *)
}.

(** [new net.Socket()] *)
Definition new : Socket :=
  {| listeners := []; connecting := None; timeout := None;
     written := []; ended := false; destroyed := false |}.

Definition add_listener (l : Listener) (s : Socket) : Socket :=
  {| listeners := (listeners s ++ [l])%list; connecting := connecting s;
     timeout := timeout s; written := written s; ended := ended s;
     destroyed := destroyed s |}.

Definition on (ev : EventName) (h : H) : Socket -> Socket :=
  add_listener {| event := ev; once_only := false; handler := h |}.

Definition once (ev : EventName) (h : H) : Socket -> Socket :=
  add_listener {| event := ev; once_only := true; handler := h |}.

Definition setTimeout (ms : Z) (s : Socket) : Socket :=
  {| listeners := listeners s; connecting := connecting s;
     timeout := Some ms; written := written s; ended := ended s;
     destroyed := destroyed s |}.

Definition write (data : list byte) (s : Socket) : Socket :=
  {| listeners := listeners s; connecting := connecting s;
     timeout := timeout s; written := (written s ++ [data])%list;
     ended := ended s; destroyed := destroyed s |}.

Definition end_ (s : Socket) : Socket :=
  {| listeners := listeners s; connecting := connecting s;
     timeout := timeout s; written := written s; ended := true;
     destroyed := destroyed s |}.

Definition destroy (s : Socket) : Socket :=
  {| listeners := listeners s; connecting := connecting s;
     timeout := timeout s; written := written s; ended := ended s;
     destroyed := true |}.

(** [connect(port, '127.0.0.1', cb)].  Node registers [cb] with [once],
    then validates the port and THROWS (ERR_SOCKET_BAD_PORT and the like)
    when it is not one; [throws port] is that exception's message.  The
    result is the socket and the exception, if any. *)
Definition connect (throws : string -> option string) (port : string)
    (cb : option H) (s : Socket) : Socket * option string :=
  let s1 := match cb with
            | Some h => once connect_ev h s
            | None => s
            end in
  match throws port with
  | Some message => (s1, Some message)
  | None =>
      ({| listeners := listeners s1; connecting := Some port;
          timeout := timeout s1; written := written s1;
          ended := ended s1; destroyed := destroyed s1 |}, None)
  end.

Definition listens (ev : EventName) (l : Listener) : bool :=
  EventName_eqb (event l) ev.

(** Emitting [ev]: the handlers to call, in registration order, and the
    socket without the [once] listeners that were just used. *)
Definition emit (ev : EventName) (s : Socket) : list H * Socket :=
  (map handler (filter (listens ev) (listeners s)),
   {| listeners :=
        filter (fun l => negb (listens ev l && once_only l)) (listeners s);
      connecting := connecting s; timeout := timeout s;
      written := written s; ended := ended s; destroyed := destroyed s |}).
End Socket.

Arguments event {H} _.
Arguments once_only {H} _.
Arguments handler {H} _.
Arguments listeners {H} _.
Arguments connecting {H} _.
Arguments timeout {H} _.
Arguments written {H} _.
Arguments ended {H} _.
Arguments destroyed {H} _.
Arguments new {H}.
Arguments on {H} ev h _.
Arguments once {H} ev h _.
Arguments setTimeout {H} ms s.
Arguments write {H} data s.
Arguments end_ {H} s.
Arguments destroy {H} s.
Arguments connect {H} throws port cb s.
Arguments emit {H} ev s.

End Net.

(** ** [promiseTimeout]: the Timeout Race *)

Module PromiseTimeout.

Section Race.
Variable A : Type.

(** What one call of [promiseTimeout] owns. *)
Record TimeoutRace : Type := {
  promise : JS.Promise A;       (* the wrapped promise *)
  errorMessage : string;
  id : JS.Timer;                (* [setTimeout]'s timer *)
  timeout : JS.Promise A;       (* the promise the timer rejects *)
  raced : JS.Promise A          (* [Promise.race([promise, timeout])] *)
}.

Definition promiseTimeout (promise : JS.Promise A) (ms : Z)
    (errorMessage : string) : TimeoutRace :=
  {| promise := promise; errorMessage := errorMessage;
     id := JS.Armed ms; timeout := JS.Pending;
     raced := JS.race JS.Pending promise JS.Pending |}.

(** The wrapped promise is settled (by whoever owns it): nothing in
    [promiseTimeout] runs but the race's own reaction. *)
Definition settles (outcome : JS.Promise A) (r : TimeoutRace)
    : TimeoutRace :=
  let p := JS.settle (promise r) outcome in
  {| promise := p; errorMessage := errorMessage r; id := id r;
     timeout := timeout r; raced := JS.race (raced r) p (timeout r) |}.

(** The timer's callback: [clearTimeout(id); reject(new Error(errorMessage))]. *)
Definition timer_callback (r : TimeoutRace) : TimeoutRace :=
  let t := JS.settle (timeout r) (JS.Rejected (errorMessage r)) in
  {| promise := promise r; errorMessage := errorMessage r;
     id := JS.clearTimeout (id r); timeout := t;
     raced := JS.race (raced r) (promise r) t |}.

(** The timer expires: an armed timer runs its callback, once. *)
Definition fires (r : TimeoutRace) : TimeoutRace :=
  match id r with
  | JS.Armed _ =>
      timer_callback
        {| promise := promise r; errorMessage := errorMessage r;
           id := JS.Expired; timeout := timeout r; raced := raced r |}
  | _ => r
  end.

Inductive Event : Type :=
| Settles (outcome : JS.Promise A)
| TimerFires.

Definition step (r : TimeoutRace) (e : Event) : TimeoutRace :=
  match e with
  | Settles outcome => settles outcome r
  | TimerFires => fires r
  end.

Definition run (r : TimeoutRace) (es : list Event) : TimeoutRace :=
  fold_left step es r.
End Race.

Arguments promise {A} _.
Arguments errorMessage {A} _.
Arguments id {A} _.
Arguments timeout {A} _.
Arguments raced {A} _.
Arguments promiseTimeout {A} promise ms errorMessage.
Arguments settles {A} outcome r.
Arguments timer_callback {A} r.
Arguments fires {A} r.
Arguments Settles {A} outcome.
Arguments TimerFires {A}.
Arguments step {A} r e.
Arguments run {A} r es.

End PromiseTimeout.


(** ** [compressData]: the Payload Encoder *)

Module Encoder.

Section Codec.
(** [util.promisify(zlib.deflate)]: the promise it returns is fulfilled with
    the compressed buffer ([inr]) or rejected with an error ([inl message]). *)
Variable deflate : list byte -> string + list byte.

(** [compressData(data)]: what it writes with [console.error] (the line
    stands for the printed error) and its result, [inl] for the exception
    it throws. *)
Definition compressData (data : list byte)
    : list string * (string + list byte) :=
  match deflate data with
  | inr compressed => ([], inr compressed)
  | inl message =>
      (["Compression failed: " ++ message],
       inl ("Compression failed: " ++ message))
  end.
End Codec.

End Encoder.

(** ** [_connectAndSendInternal]: the Socket Session *)

Module Send.

(** The closures the session registers on its socket. *)
Inductive Handler : Type :=
| connect_callback    (* the third argument of [client.connect] *)
| on_error            (* [client.on('error', ...)] *)
| on_timeout.         (* [client.on('timeout', ...)] *)

(** Where the [async] executor is suspended. *)
Inductive Pc : Type :=
| await_connect                                  (* [await promiseTimeout(...)] *)
| await_compress (plaintextBuffer : list byte)   (* [await compressData(...)] *)
| await_flush (compressedData : list byte)       (* the callback of [client.write] *)
| returned.

(** What the session does to the outside, in program order. *)
Inductive Effect : Type :=
| console_log (line : string)
| console_error (line : string)
| deflate_call (data : list byte)
| socket_write (data : list byte)
| socket_end
| socket_destroy
| resolve_call (report : string).

Record Session : Type := {
  client : Net.Socket Handler;
  connection : PromiseTimeout.TimeoutRace unit;
  pc : Pc;
  outer : JS.Promise string;      (* the promise the caller holds *)
  effects : list Effect
}.

(** What the environment can do to a session. *)
Inductive Event : Type :=
| Sock (e : Net.Event)     (* the socket emits an event *)
| TimerFires               (* the timer of [promiseTimeout] expires *)
| DeflateDone              (* the zlib job completes *)
| WriteFlushed.            (* the write is flushed: its callback is called *)

Definition note (e : Effect) (s : Session) : Session :=
  {| client := client s; connection := connection s; pc := pc s;
     outer := outer s; effects := (effects s ++ [e])%list |}.

Definition with_client (f : Net.Socket Handler -> Net.Socket Handler)
    (s : Session) : Session :=
  {| client := f (client s); connection := connection s; pc := pc s;
     outer := outer s; effects := effects s |}.

Definition with_connection
    (f : PromiseTimeout.TimeoutRace unit -> PromiseTimeout.TimeoutRace unit)
    (s : Session) : Session :=
  {| client := client s; connection := f (connection s); pc := pc s;
     outer := outer s; effects := effects s |}.

Definition goto (l : Pc) (s : Session) : Session :=
  {| client := client s; connection := connection s; pc := l;
     outer := outer s; effects := effects s |}.

Definition client_destroy (s : Session) : Session :=
  note socket_destroy (with_client Net.destroy s).

Definition client_end (s : Session) : Session :=
  note socket_end (with_client Net.end_ s).

Definition client_write (data : list byte) (s : Session) : Session :=
  note (socket_write data) (with_client (Net.write data) s).

(** [resolve(report)] of the outer promise; there is no [reject]. *)
Definition resolve (report : string) (s : Session) : Session :=
  note (resolve_call report)
    {| client := client s; connection := connection s; pc := pc s;
       outer := JS.settle (outer s) (JS.Fulfilled report);
       effects := effects s |}.

(** [res()] and [rej(err)] of the promise given to [promiseTimeout]. *)
Definition res : Session -> Session :=
  with_connection (PromiseTimeout.settles (JS.Fulfilled tt)).

Definition rej (message : string) : Session -> Session :=
  with_connection (PromiseTimeout.settles (JS.Rejected message)).

Definition timeoutMs : Z := 3000.

(** The three reports. *)
Definition executed_report (port : string) : string :=
  "Successfully executed script on port: " ++ port.

Definition connected_report (port : string) : string :=
  "Successfully connected to Opiumware on port: " ++ port ++ " (no script sent)".

Definition failure_report (port message : string) : string :=
  "Failed to connect or send on port " ++ port ++ ": " ++ message.

(** [code && code !== "NULL"] *)
Definition has_payload (code : JS.Value) : bool :=
  JS.truthy code && JS.strict_neq code "NULL".

Section Internal.
Variable deflate : list byte -> string + list byte.
Variable throws : string -> option string.
Variable code : JS.Value.
Variable port : string.

(** The body of a handler; [err] is the event's error. *)
Definition run_handler (err : string) (s : Session) (h : Handler) : Session :=
  match h with
  | connect_callback =>
      let s := note (console_log
                 ("Successfully connected to Opiumware on port: " ++ port)) s in
      res s
  | on_error =>
      let s := client_destroy s in
      rej err s
  | on_timeout =>
      let s := client_destroy s in
      rej ("Connection attempt to port " ++ port ++ " timed out.") s
  end.

(** [catch (error) { ... }] *)
Definition catch_block (message : string) (s : Session) : Session :=
  let s := client_destroy s in
  let s := note (console_error
             ("Failed to connect or send on port " ++ port ++ ": " ++ message)) s in
  let s := resolve (failure_report port message) s in
  goto returned s.

(** The [try] body after the first [await], up to the next suspension. *)
Definition after_connect (s : Session) : Session :=
  if has_payload code then
    let plaintextBuffer := JS.Buffer_from code in
    let s := note (deflate_call plaintextBuffer) s in
    goto (await_compress plaintextBuffer) s
  else
    let s := client_end s in
    let s := resolve (connected_report port) s in
    goto returned s.

(** After [await compressData(plaintextBuffer)] settles. *)
Definition after_compress (plaintextBuffer : list byte) (s : Session)
    : Session :=
  let (lines, result) := Encoder.compressData deflate plaintextBuffer in
  let s := fold_left (fun s line => note (console_error line) s) lines s in
  match result with
  | inr compressedData =>
      let s := client_write compressedData s in
      goto (await_flush compressedData) s
  | inl message => catch_block message s
  end.

(** The callback of [client.write]. *)
Definition write_callback (compressedData : list byte) (s : Session)
    : Session :=
  let s := note (console_log
             ("Script sent to port " ++ port ++ " (" ++
              JS.show (length compressedData) ++ " bytes)")) s in
  let s := client_end s in
  let s := resolve (executed_report port) s in
  goto returned s.

(** The continuation of [await promiseTimeout(...)], once the race settled. *)
Definition resume (s : Session) : Session :=
  match pc s with
  | await_connect =>
      match PromiseTimeout.raced (connection s) with
      | JS.Pending => s
      | JS.Fulfilled _ => after_connect s
      | JS.Rejected message => catch_block message s
      end
  | _ => s
  end.

(** The executor up to its first suspension.  An exception of
    [client.connect] leaves the executor of the inner promise, which rejects
    that promise; the two listeners and the socket timeout are then not set. *)
Definition start : Session :=
  let client := Net.new in
  let (client, inner) :=
    match Net.connect throws port (Some connect_callback) client with
    | (client, Some message) => (client, JS.Rejected message)
    | (client, None) =>
        let client := Net.on Net.error_ev on_error client in
        let client := Net.setTimeout timeoutMs client in
        let client := Net.on Net.timeout_ev on_timeout client in
        (client, JS.Pending)
    end in
  resume
    {| client := client;
       connection :=
         PromiseTimeout.promiseTimeout inner timeoutMs
           ("Connection to port " ++ port ++ " timed out");
       pc := await_connect; outer := JS.Pending; effects := [] |}.

Definition step (s : Session) (e : Event) : Session :=
  match e with
  | Sock ev =>
      let (handlers, client') := Net.emit (Net.name ev) (client s) in
      let s := with_client (fun _ => client') s in
      resume (fold_left (run_handler (Net.payload ev)) handlers s)
  | TimerFires =>
      resume (with_connection PromiseTimeout.fires s)
  | DeflateDone =>
      match pc s with
      | await_compress plaintextBuffer => after_compress plaintextBuffer s
      | _ => s
      end
  | WriteFlushed =>
      match pc s with
      | await_flush compressedData => write_callback compressedData s
      | _ => s
      end
  end.

(** One invocation, under the events [es]. *)
Definition _connectAndSendInternal (es : list Event) : Session :=
  fold_left step es start.
End Internal.

End Send.


(** ** ['check-port-status']: the Port Prober *)

Module Probe.

Inductive Handler : Type :=
| on_connect     (* [client.once('connect', ...)] *)
| on_error       (* [client.once('error', ...)] *)
| on_timeout.    (* [client.once('timeout', ...)] *)

Inductive Effect : Type :=
| socket_destroy
| resolve_call (live : bool).

Record Check : Type := {
  client : Net.Socket Handler;
  result : JS.Promise bool;       (* the promise the caller holds *)
  effects : list Effect
}.

Definition client_destroy (s : Check) : Check :=
  {| client := Net.destroy (client s); result := result s;
     effects := (effects s ++ [socket_destroy])%list |}.

Definition resolve (live : bool) (s : Check) : Check :=
  {| client := client s;
     result := JS.settle (result s) (JS.Fulfilled live);
     effects := (effects s ++ [resolve_call live])%list |}.

Definition timeoutMs : Z := 1000.

Definition run_handler (s : Check) (h : Handler) : Check :=
  match h with
  | on_connect =>
      let s := client_destroy s in
      resolve true s
  | on_error =>
      let s := client_destroy s in
      resolve false s
  | on_timeout =>
      let s := client_destroy s in
      resolve false s
  end.

Section Handler.
Variable throws : string -> option string.
Variable port : string.

(** The executor of the returned promise.  It has no [try]: an exception of
    [client.connect] leaves it, and the promise is rejected with it. *)
Definition start : Check :=
  let client := Net.new in
  let client := Net.once Net.connect_ev on_connect client in
  let client := Net.once Net.error_ev on_error client in
  let client := Net.once Net.timeout_ev on_timeout client in
  match Net.connect throws port None client with
  | (client, Some message) =>
      {| client := client; result := JS.Rejected message; effects := [] |}
  | (client, None) =>
      let client := Net.setTimeout timeoutMs client in
      {| client := client; result := JS.Pending; effects := [] |}
  end.

Definition step (s : Check) (ev : Net.Event) : Check :=
  let (handlers, client') := Net.emit (Net.name ev) (client s) in
  fold_left run_handler handlers
    {| client := client'; result := result s; effects := effects s |}.

(** One invocation, under the socket events [es]. *)
Definition check_port_status (es : list Net.Event) : Check :=
  fold_left step es start.
End Handler.

End Probe.

(** ** ['auto-attach']: the Autodiscovery Scanner *)

Module Scanner.

Definition PORTS : list string :=
  ["8392"; "8393"; "8394"; "8395"; "8396"; "8397"].

Definition failure_sentinel : string := "Failed to connect on all ports".

Record Scan : Type := {
  answer : JS.Promise string;           (* the promise the caller holds *)
  calls : list (JS.Value * string);     (* the calls of [_connectAndSendInternal] *)
  console : list string
}.

Section Handler.
Variable deflate : list byte -> string + list byte.
Variable throws : string -> option string.
(** The events the session opened on each port meets. *)
Variable net : string -> list Send.Event.

(** [for (const port of PORTS) { ... }], from [ports] on; [calls] and
    [console] are what was done so far.  An [await] on a session that does
    not settle leaves the handler suspended. *)
Fixpoint loop (ports : list string) (calls : list (JS.Value * string))
    (console : list string) : Scan :=
  match ports with
  | [] =>
      {| answer := JS.Fulfilled failure_sentinel; calls := calls;
         console := console |}
  | port :: rest =>
      let calls := (calls ++ [(JS.Str "NULL", port)])%list in
      match Send.outer
              (Send._connectAndSendInternal deflate throws (JS.Str "NULL")
                 port (net port)) with
      | JS.Fulfilled result =>
          if JS.startsWith result "Successfully connected" then
            {| answer := JS.Fulfilled port; calls := calls;
               console := console |}
          else loop rest calls console
      | JS.Rejected message =>
          loop rest calls
            (console ++
             [("Auto-attach failed on port " ++ port ++ ": " ++ message)%string])%list
      | JS.Pending =>
          {| answer := JS.Pending; calls := calls; console := console |}
      end
  end.

Definition auto_attach : Scan := loop PORTS [] [].
End Handler.

End Scanner.

(** ** A concrete runtime, for examples *)

Module Node.

Definition digit (c : ascii) : option N :=
  let n := N_of_ascii c in
  if ((48 <=? n) && (n <=? 57))%N then Some (n - 48)%N else None.

Fixpoint decimal (s : string) (acc : N) : option N :=
  match s with
  | EmptyString => Some acc
  | String c s' =>
      match digit c with
      | Some d => decimal s' (10 * acc + d)%N
      | None => None
      end
  end.

(** The number a decimal numeral denotes. *)
Definition port_number (s : string) : option N :=
  match s with
  | EmptyString => None
  | _ => decimal s 0
  end.

(** The characters [String.prototype.trim] removes, among the ASCII ones. *)
Definition blank (c : ascii) : bool :=
  let n := N_of_ascii c in
  ((9 <=? n) && (n <=? 13) || (n =? 32))%N.

Fixpoint all_blank (s : string) : bool :=
  match s with
  | EmptyString => true
  | String c s' => blank c && all_blank s'
  end.

Definition bad_port (port : string) : string :=
  "Port should be >= 0 and < 65536. Received type string ('" ++ port ++ "').".

(** The port validation of [net.Socket.connect], for the two kinds of string
    it is listed for here: a decimal numeral, which is a port up to 65535,
    and a string that is empty or blank, which is none; for what is no port
    [connect] throws ERR_SOCKET_BAD_PORT.  The examples use these strings
    only.  Other strings (a sign, a fraction, an exponent, a hexadecimal
    numeral, the name of a pipe) are not listed: the answer [None] says
    nothing of them, and the theorems hold for every such function. *)
Definition validatePort (port : string) : option string :=
  if all_blank port then Some (bad_port port)
  else
    match port_number port with
    | Some n => if (n <=? 65535)%N then None else Some (bad_port port)
    | None => None
    end.

End Node.

(** ** The contracts of the specification, as definitions of their own *)

Module Contract.

(** The Timeout Race in the words of its contract: "produce whichever settles
    first", the operation's own outcome or the timeout failure carrying the
    caller's message. *)
Fixpoint whichever_settles_first {A} (errorMessage : string)
    (es : list (PromiseTimeout.Event A)) : JS.Promise A :=
  match es with
  | [] => JS.Pending
  | PromiseTimeout.Settles JS.Pending :: es' =>
      whichever_settles_first errorMessage es'
  | PromiseTimeout.Settles outcome :: _ => outcome
  | PromiseTimeout.TimerFires :: _ => JS.Rejected errorMessage
  end.

Definition is_TimerFires {A} (e : PromiseTimeout.Event A) : bool :=
  match e with
  | PromiseTimeout.TimerFires => true
  | PromiseTimeout.Settles _ => false
  end.

(** The events that fail a connection attempt, with the error each one
    raises: an ['error'] of the socket, the socket's own ['timeout'], and the
    timer of the Timeout Race. *)
Definition connect_failure (port : string) (e : Send.Event) : option string :=
  match e with
  | Send.Sock (Net.Error message) => Some message
  | Send.Sock Net.Timeout =>
      Some ("Connection attempt to port " ++ port ++ " timed out.")
  | Send.TimerFires => Some ("Connection to port " ++ port ++ " timed out")
  | Send.Sock Net.Connect | Send.DeflateDone | Send.WriteFlushed => None
  end.

(** An effect that neither invokes the Payload Encoder nor writes to the
    socket. *)
Definition quiet (e : Send.Effect) : bool :=
  match e with
  | Send.deflate_call _ | Send.socket_write _ => false
  | _ => true
  end.

(** The events that belong to the waits after the connection. *)
Definition post_connect (e : Send.Event) : bool :=
  match e with
  | Send.DeflateDone | Send.WriteFlushed => true
  | _ => false
  end.




Definition is_timer (e : Send.Event) : bool :=
  match e with
  | Send.TimerFires => true
  | _ => false
  end.

(** The state of a running session: the caller's promise is settled exactly
    when the executor has returned, and never rejected. *)
Definition settled_when_returned (s : Send.Session) : Prop :=
  match Send.pc s with
  | Send.returned => exists report, Send.outer s = JS.Fulfilled report
  | _ => Send.outer s = JS.Pending
  end.

(** The session in the Connecting state: the listeners are set, both
    timeouts are armed, nothing else has happened. *)
Definition connecting (port : string) : Send.Session :=
  {| Send.client :=
       Net.on Net.timeout_ev Send.on_timeout
         (Net.setTimeout Send.timeoutMs
            (Net.on Net.error_ev Send.on_error
               (fst (Net.connect (fun _ => None) port
                       (Some Send.connect_callback) Net.new))));
     Send.connection :=
       PromiseTimeout.promiseTimeout JS.Pending Send.timeoutMs
         ("Connection to port " ++ port ++ " timed out");
     Send.pc := Send.await_connect;
     Send.outer := JS.Pending;
     Send.effects := [] |}.

(** What is on the wire, by the place the executor has reached: nothing
    before the compressed payload is written, then exactly that payload. *)
Definition wire_invariant (deflate : list byte -> string + list byte)
    (code : JS.Value) (s : Send.Session) : Prop :=
  match Send.pc s with
  | Send.await_compress plaintextBuffer =>
      Send.has_payload code = true /\
      plaintextBuffer = JS.Buffer_from code /\
      Net.written (Send.client s) = []
  | Send.await_flush compressedData =>
      Send.has_payload code = true /\
      deflate (JS.Buffer_from code) = inr compressedData /\
      Net.written (Send.client s) = [compressedData]
  | Send.await_connect | Send.returned => True
  end.

(** A session without payload: it is connecting, or it has returned with one
    of its two reports, having neither encoded nor written anything. *)
Definition sentinel_invariant (port : string) (s : Send.Session) : Prop :=
  s = connecting port \/
  (Send.pc s = Send.returned /\
   Net.written (Send.client s) = [] /\
   forallb quiet (Send.effects s) = true /\
   (Send.outer s = JS.Fulfilled (Send.connected_report port) \/
    exists message,
      Send.outer s = JS.Fulfilled (Send.failure_report port message))).


(** The Port Prober in the words of its contract: [true] when the connection
    succeeds first, [false] when an error or the timeout comes first. *)
Definition liveness (es : list Net.Event) : JS.Promise bool :=
  match es with
  | [] => JS.Pending
  | Net.Connect :: _ => JS.Fulfilled true
  | Net.Error _ :: _ | Net.Timeout :: _ => JS.Fulfilled false
  end.

End Contract.


(** ** The codec: a zlib stream of DEFLATE blocks

    Modelled from the spec: [zlib.deflate], which [compressData] calls, is
    native code of the Node runtime and not in the repository, and the
    sessions above take it as a parameter.  The specification says of the
    Payload Encoder that it "compresses an input byte payload using a
    standard DEFLATE-family algorithm", that its output is the
    "DEFLATE-compressed form" of the input and that the peer decompresses it.
    This module is that standard: the stream of RFC 1950 around the blocks of
    RFC 1951.  [inflate] reads every stream of the standard (stored blocks,
    fixed and dynamic Huffman codes).  [deflate] is one compressor of the
    family, with the parameters the program leaves at their defaults where
    they show in the stream (a 32K window, the header of the default level);
    it finds the repeated strings by exhaustive search and writes one block
    in the fixed codes, where the compressor of zlib searches along hash
    chains and chooses the codes of each block, so the two agree on the
    format and on short payloads without repeats, not byte for byte on
    every payload. *)

Module Zlib.

Local Open Scope list_scope.

Definition byte_of_N (n : N) : byte :=
  match Byte.of_N (n mod 256) with
  | Some b => b
  | None => x00
  end.

(** 32 bits, most significant byte first. *)
Definition be32 (n : N) : list byte :=
  [byte_of_N (n / 16777216); byte_of_N (n / 65536); byte_of_N (n / 256);
   byte_of_N n].

Definition adler32 (data : list byte) : N :=
  let '(a, b) :=
    fold_left
      (fun '(a, b) x =>
         let a' := ((a + Byte.to_N x) mod 65521)%N in
         (a', ((b + a') mod 65521)%N))
      data (1%N, 0%N) in
  (b * 65536 + a)%N.

Fixpoint bytes_eqb (a b : list byte) : bool :=
  match a, b with
  | [], [] => true
  | x :: a', y :: b' => Byte.eqb x y && bytes_eqb a' b'
  | _, _ => false
  end.

(** *** Bits

    A DEFLATE stream is a sequence of bits; the bits of a byte are taken
    from the least significant one. *)

Definition bits_of_byte (b : byte) : list bool :=
  let '(b0, (b1, (b2, (b3, (b4, (b5, (b6, b7))))))) := Byte.to_bits b in
  [b0; b1; b2; b3; b4; b5; b6; b7].

Definition bits_of_bytes (data : list byte) : list bool :=
  flat_map bits_of_byte data.

(** The byte of at most eight bits; the missing ones are zero. *)
Definition byte_of_bits (bs : list bool) : byte :=
  Byte.of_bits
    (nth 0 bs false, (nth 1 bs false, (nth 2 bs false, (nth 3 bs false,
    (nth 4 bs false, (nth 5 bs false, (nth 6 bs false, nth 7 bs false))))))).

Fixpoint bytes_of_bits (bs : list bool) : list byte :=
  match bs with
  | [] => []
  | b0 :: b1 :: b2 :: b3 :: b4 :: b5 :: b6 :: b7 :: rest =>
      Byte.of_bits (b0, (b1, (b2, (b3, (b4, (b5, (b6, b7)))))))
      :: bytes_of_bits rest
  | _ => [byte_of_bits bs]
  end.

(** The [width] low bits of [n], least significant first: the order of every
    number of the format but the Huffman codes. *)
Fixpoint bits_of_N (width : nat) (n : N) : list bool :=
  match width with
  | O => []
  | S width' => N.odd n :: bits_of_N width' (N.div2 n)
  end.

Fixpoint N_of_bits (bs : list bool) : N :=
  match bs with
  | [] => 0%N
  | b :: bs' => (N.b2n b + 2 * N_of_bits bs')%N
  end.

(** A Huffman code of [width] bits, most significant bit first. *)
Definition code_bits (width : nat) (n : N) : list bool :=
  rev (bits_of_N width n).

Fixpoint take (n : nat) (bs : list bool) : option (list bool * list bool) :=
  match n with
  | O => Some ([], bs)
  | S n' =>
      match bs with
      | [] => None
      | b :: bs' =>
          match take n' bs' with
          | Some (t, rest) => Some (b :: t, rest)
          | None => None
          end
      end
  end.

(** *** Canonical Huffman codes

    A code is given by the length of the code of each symbol (RFC 1951,
    3.2.2): [counts] is the number of codes of each length, from length 1,
    and [symbols] the symbols in the order of their codes. *)

Record Huffman : Type := {
  counts : list N;
  symbols : list N
}.

Definition max_bits : nat := 15.

Definition construct (lengths : list nat) : Huffman :=
  let indexed := combine (map N.of_nat (seq 0 (length lengths))) lengths in
  {| counts :=
       map (fun len => N.of_nat (count_occ Nat.eq_dec lengths len))
           (seq 1 max_bits);
     symbols :=
       flat_map
         (fun len =>
            map fst (filter (fun p => Nat.eqb (snd p) len) indexed))
         (seq 1 max_bits) |}.

(** The code space the lengths leave unused: [Some 0] for a complete code,
    [None] for lengths that no code has. *)
Fixpoint left_over (counts : list N) (space : N) : option N :=
  match counts with
  | [] => Some space
  | count :: counts' =>
      if (2 * space <? count)%N then None
      else left_over counts' (2 * space - count)%N
  end.

Definition unused (h : Huffman) : option N := left_over (counts h) 1%N.

(** Reading one symbol, a bit at a time: [code] is the code read so far,
    [first] the first code of the current length and [index] the place of
    its symbol. *)
Fixpoint decode_loop (invalid : string) (counts symbols : list N)
    (code first index : N) (bs : list bool) : string + (N * list bool) :=
  match counts with
  | [] => inl invalid
  | count :: counts' =>
      match bs with
      | [] => inl "unexpected end of file"%string
      | b :: bs' =>
          let code := (code + N.b2n b)%N in
          if (code <? first + count)%N then
            match nth_error symbols (N.to_nat (index + (code - first))) with
            | Some symbol => inr (symbol, bs')
            | None => inl invalid
            end
          else
            decode_loop invalid counts' symbols (2 * code)%N
              (2 * (first + count))%N (index + count)%N bs'
      end
  end.

Definition decode (invalid : string) (h : Huffman) (bs : list bool)
    : string + (N * list bool) :=
  decode_loop invalid (counts h) (symbols h) 0%N 0%N 0%N bs.

(** The fixed codes of RFC 1951, 3.2.6. *)
Definition fixed_lengths : list nat :=
  repeat 8 144 ++ repeat 9 112 ++ repeat 7 24 ++ repeat 8 8.

Definition fixed_lencode : Huffman := construct fixed_lengths.
Definition fixed_distcode : Huffman := construct (repeat 5 30).

(** Lengths and distances: the base value and the number of extra bits of
    the symbols 257.. and of the distance symbols (RFC 1951, 3.2.5). *)
Definition length_table : list (N * N) :=
  [(3, 0); (4, 0); (5, 0); (6, 0); (7, 0); (8, 0); (9, 0); (10, 0);
   (11, 1); (13, 1); (15, 1); (17, 1); (19, 2); (23, 2); (27, 2); (31, 2);
   (35, 3); (43, 3); (51, 3); (59, 3); (67, 4); (83, 4); (99, 4); (115, 4);
   (131, 5); (163, 5); (195, 5); (227, 5); (258, 0)]%N.

Definition distance_table : list (N * N) :=
  [(1, 0); (2, 0); (3, 0); (4, 0); (5, 1); (7, 1); (9, 2); (13, 2);
   (17, 3); (25, 3); (33, 4); (49, 4); (65, 5); (97, 5); (129, 6); (193, 6);
   (257, 7); (385, 7); (513, 8); (769, 8); (1025, 9); (1537, 9);
   (2049, 10); (3073, 10); (4097, 11); (6145, 11); (8193, 12); (12289, 12);
   (16385, 13); (24577, 13)]%N.

(** The value of symbol [i] of a table: its base and its extra bits. *)
Definition read_extra (table : list (N * N)) (i : N) (bs : list bool)
    : option (N * list bool) :=
  match nth_error table (N.to_nat i) with
  | Some (base, extra) =>
      match take (N.to_nat extra) bs with
      | Some (e, rest) => Some ((base + N_of_bits e)%N, rest)
      | None => None
      end
  | None => None
  end.

(** *** Inflate

    The output is kept last byte first, so that a distance counts from its
    head. *)

(** [len] bytes from [dist] back; the copy may run into what it writes. *)
Fixpoint copy (dist len : nat) (rout : list byte) : option (list byte) :=
  match len with
  | O => Some rout
  | S len' =>
      match nth_error rout (Nat.pred dist) with
      | Some b => copy dist len' (b :: rout)
      | None => None
      end
  end.

(** The symbols of a compressed block, up to its end-of-block symbol. *)
Fixpoint codes (fuel : nat) (lencode distcode : Huffman) (bs : list bool)
    (rout : list byte) : string + (list bool * list byte) :=
  match fuel with
  | O => inl "unexpected end of file"%string
  | S fuel' =>
      match decode "invalid literal/length code" lencode bs with
      | inl e => inl e
      | inr (symbol, bs) =>
          if (symbol <? 256)%N then
            codes fuel' lencode distcode bs (byte_of_N symbol :: rout)
          else if (symbol =? 256)%N then inr (bs, rout)
          else
            match read_extra length_table (symbol - 257) bs with
            | None => inl "invalid literal/length code"%string
            | Some (len, bs) =>
                match decode "invalid distance code" distcode bs with
                | inl e => inl e
                | inr (dsymbol, bs) =>
                    match read_extra distance_table dsymbol bs with
                    | None => inl "invalid distance code"%string
                    | Some (dist, bs) =>
                        match copy (N.to_nat dist) (N.to_nat len) rout with
                        | None => inl "invalid distance too far back"%string
                        | Some rout => codes fuel' lencode distcode bs rout
                        end
                    end
                end
            end
      end
  end.

(** A stored block: the rest of the current byte is skipped, then come the
    length, its complement and the bytes. *)
Definition stored (bs : list bool) (rout : list byte)
    : string + (list bool * list byte) :=
  let bs := skipn (length bs mod 8) bs in
  match take 16 bs with
  | Some (len, bs) =>
      match take 16 bs with
      | Some (nlen, bs) =>
          if (N_of_bits len + N_of_bits nlen =? 65535)%N then
            match take (8 * N.to_nat (N_of_bits len)) bs with
            | Some (data, bs) => inr (bs, rev (bytes_of_bits data) ++ rout)
            | None => inl "unexpected end of file"%string
            end
          else inl "invalid stored block lengths"%string
      | None => inl "unexpected end of file"%string
      end
  | None => inl "unexpected end of file"%string
  end.

(** The order in which a dynamic block gives the lengths of the codes of
    the code lengths. *)
Definition order : list nat :=
  [16; 17; 18; 0; 8; 7; 9; 6; 10; 5; 11; 4; 12; 3; 13; 2; 14; 1; 15].

Fixpoint triples (n : nat) (bs : list bool) : option (list nat * list bool) :=
  match n with
  | O => Some ([], bs)
  | S n' =>
      match take 3 bs with
      | Some (t, bs) =>
          match triples n' bs with
          | Some (ts, rest) => Some (N.to_nat (N_of_bits t) :: ts, rest)
          | None => None
          end
      | None => None
      end
  end.

(** The length given to [symbol], when [given] are the lengths read, in
    [order]. *)
Fixpoint placed (given : list nat) (order : list nat) (symbol : nat) : nat :=
  match given, order with
  | len :: given', s :: order' =>
      if Nat.eqb s symbol then len else placed given' order' symbol
  | _, _ => O
  end.

(** The [need] code lengths of a dynamic block, run-length coded; [done]
    holds those read so far, last first. *)
Fixpoint code_lengths (fuel : nat) (h : Huffman) (need : nat)
    (done : list nat) (bs : list bool) : string + (list nat * list bool) :=
  match need with
  | O => inr (rev done, bs)
  | S _ =>
      match fuel with
      | O => inl "invalid bit length repeat"%string
      | S fuel' =>
          match decode "invalid code lengths set" h bs with
          | inl e => inl e
          | inr (symbol, bs) =>
              let again (width : nat) (least : nat) (len : option nat) :=
                match take width bs with
                | None => inl "unexpected end of file"%string
                | Some (e, bs) =>
                    let times := (least + N.to_nat (N_of_bits e))%nat in
                    match len with
                    | None => inl "invalid bit length repeat"%string
                    | Some len =>
                        if (times <=? need)%nat then
                          code_lengths fuel' h (need - times)
                            (repeat len times ++ done) bs
                        else inl "invalid bit length repeat"%string
                    end
                end in
              if (symbol <? 16)%N then
                code_lengths fuel' h (need - 1) (N.to_nat symbol :: done) bs
              else if (symbol =? 16)%N then again 2%nat 3%nat (hd_error done)
              else if (symbol =? 17)%N then again 3%nat 3%nat (Some O)
              else again 7%nat 11%nat (Some O)
          end
      end
  end.

(** A code a compressed block may use: complete, or of one symbol only. *)
Definition usable (lengths : list nat) : bool :=
  match unused (construct lengths) with
  | Some space =>
      (space =? 0)%N ||
      Nat.eqb (length (filter (fun len => negb (Nat.eqb len 0)) lengths)) 1
  | None => false
  end.

(** The two codes a dynamic block starts with. *)
Definition dynamic (bs : list bool)
    : string + (Huffman * Huffman * list bool) :=
  match take 5 bs with
  | None => inl "unexpected end of file"%string
  | Some (hlit, bs) =>
  match take 5 bs with
  | None => inl "unexpected end of file"%string
  | Some (hdist, bs) =>
  match take 4 bs with
  | None => inl "unexpected end of file"%string
  | Some (hclen, bs) =>
      let nlen := (N.to_nat (N_of_bits hlit) + 257)%nat in
      let ndist := (N.to_nat (N_of_bits hdist) + 1)%nat in
      let ncode := (N.to_nat (N_of_bits hclen) + 4)%nat in
      if ((286 <? nlen)%nat || (30 <? ndist)%nat)%bool then
        inl "too many length or distance symbols"%string
      else
        match triples ncode bs with
        | None => inl "unexpected end of file"%string
        | Some (given, bs) =>
            let h := construct (map (placed given order) (seq 0 19)) in
            match unused h with
            | Some 0%N =>
                match code_lengths (nlen + ndist) h (nlen + ndist) [] bs with
                | inl e => inl e
                | inr (lengths, bs) =>
                    if Nat.eqb (nth 256 lengths O) 0 then
                      inl "invalid code -- missing end-of-block"%string
                    else if negb (usable (firstn nlen lengths)) then
                      inl "invalid literal/lengths set"%string
                    else if negb (usable (skipn nlen lengths)) then
                      inl "invalid distances set"%string
                    else
                      inr (construct (firstn nlen lengths),
                           construct (skipn nlen lengths), bs)
                end
            | _ => inl "invalid code lengths set"%string
            end
        end
  end end end.

(** The blocks, up to the one marked final. *)
Fixpoint blocks (fuel : nat) (bs : list bool) (rout : list byte)
    : string + (list bool * list byte) :=
  match fuel with
  | O => inl "unexpected end of file"%string
  | S fuel' =>
      match bs with
      | final :: t0 :: t1 :: bs =>
          let block :=
            match t0, t1 with
            | false, false => stored bs rout
            | true, false =>
                codes (S (length bs)) fixed_lencode fixed_distcode bs rout
            | false, true =>
                match dynamic bs with
                | inl e => inl e
                | inr (lencode, distcode, bs) =>
                    codes (S (length bs)) lencode distcode bs rout
                end
            | true, true => inl "invalid block type"%string
            end in
          match block with
          | inl e => inl e
          | inr (bs, rout) =>
              if (final : bool) then inr (bs, rout) else blocks fuel' bs rout
          end
      | _ => inl "unexpected end of file"%string
      end
  end.

(** The two bytes a zlib stream starts with (RFC 1950, 2.2). *)
Definition header (cmf flg : byte) : option string :=
  let c := Byte.to_N cmf in
  let f := Byte.to_N flg in
  if negb ((c * 256 + f) mod 31 =? 0)%N then Some "incorrect header check"%string
  else if negb (c mod 16 =? 8)%N then Some "unknown compression method"%string
  else if (7 <? c / 16)%N then Some "invalid window size"%string
  else if N.testbit f 5 then Some "need dictionary"%string
  else None.

(** Modelled from the spec: "decompressing the encoder's output", the
    inflate of the standard, which the repository does not contain.  It
    reads the header, the blocks, and the Adler-32 checksum of the data,
    which starts at the next whole byte. *)
Definition inflate (data : list byte) : string + list byte :=
  match data with
  | cmf :: flg :: body =>
      match header cmf flg with
      | Some e => inl e
      | None =>
          let bs := bits_of_bytes body in
          match blocks (S (length bs)) bs [] with
          | inl e => inl e
          | inr (bs, rout) =>
              let out := rev rout in
              let check := bytes_of_bits (skipn (length bs mod 8) bs) in
              if (length check <? 4)%nat then
                inl "unexpected end of file"%string
              else if bytes_eqb (firstn 4 check) (be32 (adler32 out)) then
                inr out
              else inl "incorrect data check"%string
          end
      end
  | _ => inl "unexpected end of file"%string
  end.

(** *** Deflate

    The compressor: it replaces a string of bytes that occurred before, at
    most 32768 bytes back, by its length and that distance (the longest such
    string at each place, 3 to 258 bytes long, the nearest one of that
    length), and writes the result as one block in the fixed codes. *)

Inductive Token : Type :=
| Lit (b : byte)
| Match (len dist : nat).

Definition max_match : nat := 258.
Definition window : nat := N.to_nat 32768.
Arguments window : simpl never.

(** How many of the bytes of [suf] repeat what stands [dist] back, up to
    [room]. *)
Fixpoint match_len (dist : nat) (rout suf : list byte) (room : nat) : nat :=
  match room, suf with
  | S room', b :: suf' =>
      match nth_error rout (Nat.pred dist) with
      | Some c =>
          if Byte.eqb b c then S (match_len dist (b :: rout) suf' room')
          else O
      | None => O
      end
  | _, _ => O
  end.

(** The longest match among the distances from [dist] on, one per byte of
    [hist], if longer than [best]. *)
Fixpoint longest_match (hist : list byte) (dist : nat)
    (rout suf : list byte) (best : nat * nat) : nat * nat :=
  match hist with
  | [] => best
  | _ :: hist' =>
      let len := match_len dist rout suf max_match in
      longest_match hist' (S dist) rout suf
        (if (fst best <? len)%nat then (len, dist) else best)
  end.

(** The tokens of [suf], which follows [rout]; the first [skip] bytes are
    covered by the match before them. *)
Fixpoint lz77 (skip : nat) (rout suf : list byte) : list Token :=
  match suf with
  | [] => []
  | b :: suf' =>
      match skip with
      | S skip' => lz77 skip' (b :: rout) suf'
      | O =>
          let (len, dist) :=
            longest_match (firstn window rout) 1 rout suf (O, O) in
          if (3 <=? len)%nat then
            Match len dist :: lz77 (Nat.pred len) (b :: rout) suf'
          else Lit b :: lz77 O (b :: rout) suf'
      end
  end.

(** The code of a literal/length symbol in the fixed code. *)
Definition fixed_code (symbol : N) : list bool :=
  if (symbol <? 144)%N then code_bits 8 (48 + symbol)
  else if (symbol <? 256)%N then code_bits 9 (400 + (symbol - 144))
  else if (symbol <? 280)%N then code_bits 7 (symbol - 256)
  else code_bits 8 (192 + (symbol - 280)).

(** The symbol for the value [v]: the last one of the table whose base is
    not above [v], with that base and its number of extra bits. *)
Fixpoint entry (table : list (N * N)) (i : N) (v : N)
    (found : option (N * N * N)) : option (N * N * N) :=
  match table with
  | [] => found
  | (base, extra) :: table' =>
      if (base <=? v)%N then entry table' (i + 1)%N v (Some (i, base, extra))
      else found
  end.

Definition length_bits (len : N) : list bool :=
  match entry length_table 0 len None with
  | Some (i, base, extra) =>
      fixed_code (257 + i) ++ bits_of_N (N.to_nat extra) (len - base)
  | None => []
  end.

Definition distance_bits (dist : N) : list bool :=
  match entry distance_table 0 dist None with
  | Some (i, base, extra) =>
      code_bits 5 i ++ bits_of_N (N.to_nat extra) (dist - base)
  | None => []
  end.

Definition token_bits (t : Token) : list bool :=
  match t with
  | Lit b => fixed_code (Byte.to_N b)
  | Match len dist =>
      length_bits (N.of_nat len) ++ distance_bits (N.of_nat dist)
  end.

(** The final block, in the fixed codes: its three header bits, the tokens
    and the end-of-block symbol. *)
Definition block_bits (data : list byte) : list bool :=
  [true; true; false] ++ flat_map token_bits (lz77 O [] data)
  ++ fixed_code 256.

(** Modelled from the spec: [zlib.deflate] with the options the program
    leaves at their defaults, which the repository does not contain.  The
    header of a 32K window and the default level, the block, and the
    checksum.  It reports no error: the specification leaves that path to
    failures of resources, and the model has none. *)
Definition deflate (data : list byte) : string + list byte :=
  inr ([x78; x9c] ++ bytes_of_bits (block_bits data) ++ be32 (adler32 data)).

End Zlib.

(** ** The shell: the window, its controls and the life of the app

    [createWindow], the three [ipcMain.on] listeners it registers, the
    [whenReady], ['activate'] and ['window-all-closed'] handlers of
    [main.js], and the API that [preload.js] exposes.  Electron is the
    environment: it delivers [Ready] once at most, ['activate'], and the
    messages of the renderer of an open window; a window asked to close is
    gone when the message has been handled. *)

Module Shell.

Inductive Platform : Type := darwin | win32 | linux.

(** [process.platform !== 'darwin'] *)
Definition not_darwin (p : Platform) : bool :=
  match p with
  | darwin => false
  | win32 | linux => true
  end.

(** An open [BrowserWindow]. *)
Record BrowserWindow : Type := {
  id : nat;
  maximized : bool;      (* [isMaximized()] *)
  minimized : bool;
  closing : bool         (* [close()] was called *)
}.

(** The closures that [createWindow] registers with [ipcMain.on]. *)
Inductive Listener : Type :=
| on_minimize     (* [mainWindow.minimize()] *)
| on_maximize     (* [isMaximized() ? unmaximize() : maximize()] *)
| on_close.       (* [mainWindow.close()] *)

(** What the main process does to Electron, in program order. *)
Inductive Call : Type :=
| new_window (w : nat)
| loadFile (w : nat) (file : string)
| minimize (w : nat)
| maximize (w : nat)
| unmaximize (w : nat)
| close (w : nat)
| quit
| object_destroyed (w : nat)   (* a method of a window that is gone: it throws *)
| no_window.                   (* a method of [undefined]: it throws *)

Record App : Type := {
  platform : Platform;
  ready : bool;                            (* the ['activate'] listener is on *)
  windows : list BrowserWindow;            (* [BrowserWindow.getAllWindows()] *)
  mainWindow : option nat;                 (* [let mainWindow] *)
  made : nat;                              (* the windows made so far *)
  on_channel : list (string * Listener);   (* [ipcMain.on], in order *)
  log : list Call;
  has_quit : bool
}.

Definition set_windows (ws : list BrowserWindow) (a : App) : App :=
  {| platform := platform a; ready := ready a; windows := ws;
     mainWindow := mainWindow a; made := made a;
     on_channel := on_channel a; log := log a; has_quit := has_quit a |}.

Definition record (c : Call) (a : App) : App :=
  {| platform := platform a; ready := ready a; windows := windows a;
     mainWindow := mainWindow a; made := made a;
     on_channel := on_channel a; log := (log a ++ [c])%list;
     has_quit := has_quit a |}.

Definition is_open (w : nat) (a : App) : bool :=
  existsb (fun b => (id b =? w)%nat) (windows a).

Definition update (w : nat) (f : BrowserWindow -> BrowserWindow)
    (ws : list BrowserWindow) : list BrowserWindow :=
  map (fun b => if (id b =? w)%nat then f b else b) ws.

(** A method of [mainWindow]: [effect] on the window, [call] in the log. *)
Definition method (call : nat -> Call)
    (effect : BrowserWindow -> BrowserWindow) (a : App) : App :=
  match mainWindow a with
  | None => record no_window a
  | Some w =>
      if is_open w a then
        record (call w) (set_windows (update w effect (windows a)) a)
      else record (object_destroyed w) a
  end.

Definition set_maximized (v : bool) (b : BrowserWindow) : BrowserWindow :=
  {| id := id b; maximized := v; minimized := minimized b;
     closing := closing b |}.

Definition set_minimized (b : BrowserWindow) : BrowserWindow :=
  {| id := id b; maximized := maximized b; minimized := true;
     closing := closing b |}.

Definition set_closing (b : BrowserWindow) : BrowserWindow :=
  {| id := id b; maximized := maximized b; minimized := minimized b;
     closing := true |}.

(** [mainWindow.isMaximized()]; [None] when the call throws. *)
Definition isMaximized (a : App) : option bool :=
  match mainWindow a with
  | None => None
  | Some w =>
      match find (fun b => (id b =? w)%nat) (windows a) with
      | Some b => Some (maximized b)
      | None => None
      end
  end.

(** The body of a listener.  When [isMaximized()] throws, on a window that
    is gone, the listener ends there: [method] records that one throw. *)
Definition run_listener (a : App) (l : Listener) : App :=
  match l with
  | on_minimize => method minimize set_minimized a
  | on_maximize =>
      match isMaximized a with
      | Some true => method unmaximize (set_maximized false) a
      | Some false => method maximize (set_maximized true) a
      | None => method maximize (set_maximized true) a
      end
  | on_close => method close set_closing a
  end.

Definition createWindow (a : App) : App :=
  let w := made a in
  {| platform := platform a; ready := ready a;
     windows :=
       (windows a ++
        [{| id := w; maximized := false; minimized := false;
            closing := false |}])%list;
     mainWindow := Some w;
     made := S w;
     on_channel :=
       (on_channel a ++
        [("minimize-window", on_minimize);
         ("maximize-window", on_maximize);
         ("close-window", on_close)])%list;
     log := (log a ++ [new_window w; loadFile w "index.html"])%list;
     has_quit := has_quit a |}.

(** [app.on('window-all-closed', ...)] *)
Definition window_all_closed (a : App) : App :=
  if not_darwin (platform a) then
    {| platform := platform a; ready := ready a; windows := windows a;
       mainWindow := mainWindow a; made := made a;
       on_channel := on_channel a; log := (log a ++ [quit])%list;
       has_quit := true |}
  else a.

(** The windows asked to close are gone; Electron emits
    ['window-all-closed'] when that was the last one. *)
Definition reap (a : App) : App :=
  let left := filter (fun b => negb (closing b)) (windows a) in
  let gone := existsb closing (windows a) in
  let a := set_windows left a in
  match left with
  | [] => if gone then window_all_closed a else a
  | _ => a
  end.

(** A message on [channel]: every listener registered for it, in order. *)
Definition dispatch (channel : string) (a : App) : App :=
  let ls :=
    map snd (filter (fun cl => (fst cl =? channel)%string) (on_channel a)) in
  reap (fold_left run_listener ls a).

Inductive Event : Type :=
| Ready                        (* [app.whenReady()] is fulfilled *)
| Activate                     (* ['activate'] *)
| Message (channel : string).  (* [ipcRenderer.send(channel)] *)

Definition step (a : App) (e : Event) : App :=
  if has_quit a then a
  else
    match e with
    | Ready =>
        if ready a then a
        else
          let a := createWindow a in
          {| platform := platform a; ready := true; windows := windows a;
             mainWindow := mainWindow a; made := made a;
             on_channel := on_channel a; log := log a;
             has_quit := has_quit a |}
    | Activate =>
        if ready a then
          match windows a with
          | [] => createWindow a
          | _ => a
          end
        else a
    | Message channel =>
        match windows a with
        | [] => a                      (* no renderer to send it *)
        | _ => dispatch channel a
        end
    end.

Definition launch (p : Platform) : App :=
  {| platform := p; ready := false; windows := []; mainWindow := None;
     made := 0; on_channel := []; log := []; has_quit := false |}.

Definition run (p : Platform) (es : list Event) : App :=
  fold_left step es (launch p).

(** [preload.js]: how a function of [electronAPI] reaches the main process. *)
Inductive Kind : Type := send | invoke.

Definition electronAPI : list (string * (Kind * string)) :=
  [("minimizeWindow", (send, "minimize-window"));
   ("maximizeWindow", (send, "maximize-window"));
   ("closeWindow", (send, "close-window"));
   ("connectAndSend", (invoke, "connect-and-send"));
   ("checkPortStatus", (invoke, "check-port-status"));
   ("autoAttach", (invoke, "auto-attach"))].

(** The channels of [ipcMain.handle], registered when [main.js] is loaded. *)
Definition handled : list string :=
  ["connect-and-send"; "check-port-status"; "auto-attach"].

(** A function of the API finds its counterpart in the main process. *)
Definition served (a : App) (entry : string * (Kind * string)) : bool :=
  match entry with
  | (_, (send, channel)) =>
      existsb (fun cl => (fst cl =? channel)%string) (on_channel a)
  | (_, (invoke, channel)) =>
      existsb (fun c => (c =? channel)%string) handled
  end.

(** The listeners after [n] calls of [createWindow]. *)
Fixpoint registered (n : nat) : list (string * Listener) :=
  match n with
  | O => []
  | S n' =>
      (registered n' ++
       [("minimize-window", on_minimize);
        ("maximize-window", on_maximize);
        ("close-window", on_close)])%list
  end.

(** A call that throws. *)
Definition throws (c : Call) : bool :=
  match c with
  | object_destroyed _ | no_window => true
  | _ => false
  end.

(** What a listener does when the window of [mainWindow] is the open window
    [w]: its call, and the window afterwards. *)
Definition reaction (w : BrowserWindow) (l : Listener)
    : Call * BrowserWindow :=
  match l with
  | on_minimize => (minimize (id w), set_minimized w)
  | on_maximize =>
      if maximized w then (unmaximize (id w), set_maximized false w)
      else (maximize (id w), set_maximized true w)
  | on_close => (close (id w), set_closing w)
  end.

Fixpoint reactions (w : BrowserWindow) (ls : list Listener)
    : list Call * BrowserWindow :=
  match ls with
  | [] => ([], w)
  | l :: ls' =>
      let (c, w1) := reaction w l in
      let (cs, wn) := reactions w1 ls' in
      (c :: cs, wn)
  end.

(** What holds of the app between two events. *)
Definition consistent (a : App) : Prop :=
  on_channel a = registered (made a) /\
  existsb throws (log a) = false /\
  (ready a = false -> made a = 0) /\
  (ready a = true -> 1 <= made a) /\
  (has_quit a = true -> windows a = []) /\
  (not_darwin (platform a) = true ->
   made a <= 1 /\ (ready a = true -> windows a = [] -> has_quit a = true)) /\
  match windows a with
  | [] => made a = 0 -> mainWindow a = None
  | [w] =>
      S (id w) = made a /\ mainWindow a = Some (id w) /\ closing w = false
  | _ :: _ :: _ => False
  end.

End Shell.

(** ** Readings of a session, of a probe and of a scan *)

Module Observe.

(** The reports the session has called [resolve] with, in order. *)
Definition reports (effects : list Send.Effect) : list string :=
  flat_map
    (fun e => match e with
              | Send.resolve_call report => [report]
              | _ => []
              end)
    effects.

(** The socket is released: ended or destroyed. *)
Definition released (s : Send.Session) : bool :=
  Net.ended (Send.client s) || Net.destroyed (Send.client s).

(** What [resolve] was called with is what the promise holds. *)
Definition resolved_as_reported (s : Send.Session) : Prop :=
  match Send.pc s with
  | Send.returned =>
      exists report,
        Send.outer s = JS.Fulfilled report /\
        reports (Send.effects s) = [report]
  | _ => Send.outer s = JS.Pending /\ reports (Send.effects s) = []
  end.

(** How a returned session has left its socket: destroyed behind a failure
    report, ended behind a success report. *)
Definition closed_as_reported (port : string) (s : Send.Session) : Prop :=
  match Send.pc s with
  | Send.returned =>
      (Net.destroyed (Send.client s) = true /\
       exists message,
         Send.outer s = JS.Fulfilled (Send.failure_report port message)) \/
      (Net.ended (Send.client s) = true /\
       (Send.outer s = JS.Fulfilled (Send.connected_report port) \/
        Send.outer s = JS.Fulfilled (Send.executed_report port)))
  | _ => True
  end.





(** The first event that the Connecting state reacts to. *)
Definition decisive (es : list Send.Event) : option Send.Event :=
  find (fun e => negb (Contract.post_connect e)) es.

(** What a session without payload answers, read off its events: the failure
    report of the exception of [connect]; otherwise nothing before the first
    decisive event, and then the success report when that event is the
    connection, the failure report of its error when it is not. *)
Definition verdict (throws : string -> option string) (port : string)
    (es : list Send.Event) : JS.Promise string :=
  match throws port with
  | Some message => JS.Fulfilled (Send.failure_report port message)
  | None =>
      match decisive es with
      | None => JS.Pending
      | Some e =>
          match Contract.connect_failure port e with
          | Some message => JS.Fulfilled (Send.failure_report port message)
          | None => JS.Fulfilled (Send.connected_report port)
          end
      end
  end.

(** The scan read off the events of the sockets: the first port whose socket
    connects first, provided the ports before it have failed. *)
Fixpoint discover (throws : string -> option string)
    (net : string -> list Send.Event) (ports : list string)
    : JS.Promise string :=
  match ports with
  | [] => JS.Fulfilled Scanner.failure_sentinel
  | port :: rest =>
      match throws port, decisive (net port) with
      | None, Some (Send.Sock Net.Connect) => JS.Fulfilled port
      | None, None => JS.Pending
      | _, _ => discover throws net rest
      end
  end.

(** The ports the scan opens a session on. *)
Fixpoint probed (throws : string -> option string)
    (net : string -> list Send.Event) (ports : list string) : list string :=
  match ports with
  | [] => []
  | port :: rest =>
      match throws port, decisive (net port) with
      | None, Some (Send.Sock Net.Connect) => [port]
      | None, None => [port]
      | _, _ => port :: probed throws net rest
      end
  end.

(** The kinds of event a list of socket events holds. *)
Definition kinds (es : list Net.Event) : list Net.EventName :=
  map Net.name es.

End Observe.
(** * Properties *)

(** ** Lists *)

Lemma firstn_prefix A (l after : list A) :
  firstn (length l) (l ++ after) = l.
Proof.
  induction l as [|a l IH]; simpl; [now destruct after | now rewrite IH].
Qed.

Lemma skipn_prefix A (l after : list A) : skipn (length l) (l ++ after) = after.
Proof. induction l as [|a l IH]; simpl; trivial. Qed.

(** ** Promises *)

Lemma settle_settled A (p q : JS.Promise A) :
  JS.settled p = true -> JS.settle p q = p.
Proof. destruct p; simpl; intros H; [discriminate H | reflexivity | reflexivity]. Qed.

Lemma race_settled A (r p q : JS.Promise A) :
  JS.settled r = true -> JS.race r p q = r.
Proof. intros H. unfold JS.race. now apply settle_settled. Qed.

(** ** The Timeout Race *)

Section TimeoutRaceFacts.
Context {A : Type}.
Implicit Types (r : PromiseTimeout.TimeoutRace A) (e : PromiseTimeout.Event A).

(** A settled race is not changed by anything that happens later. *)
Lemma raced_step_stable r e :
  JS.settled (PromiseTimeout.raced r) = true ->
  PromiseTimeout.raced (PromiseTimeout.step r e) = PromiseTimeout.raced r.
Proof.
  intros H. destruct e as [o|]; simpl.
  - now apply race_settled.
  - unfold PromiseTimeout.fires. destruct (PromiseTimeout.id r); simpl; trivial.
    now apply race_settled.
Qed.

Lemma raced_run_stable es r :
  JS.settled (PromiseTimeout.raced r) = true ->
  PromiseTimeout.raced (PromiseTimeout.run r es) = PromiseTimeout.raced r.
Proof.
  revert r. induction es as [|e es IH]; intros r H; simpl; trivial.
  unfold PromiseTimeout.run in *. simpl.
  rewrite IH; rewrite raced_step_stable; trivial.
Qed.

(** While everything is pending and the timer armed, the race is the first
    to settle. *)
Lemma raced_run_pending es : forall r ms,
  PromiseTimeout.promise r = JS.Pending ->
  PromiseTimeout.timeout r = JS.Pending ->
  PromiseTimeout.raced r = JS.Pending ->
  PromiseTimeout.id r = JS.Armed ms ->
  PromiseTimeout.raced (PromiseTimeout.run r es) =
  Contract.whichever_settles_first (PromiseTimeout.errorMessage r) es.
Proof.
  induction es as [|e es IH]; intros r ms Hp Ht Hr Hi; simpl; trivial.
  destruct e as [o|].
  - destruct o as [|v|m].
    + unfold PromiseTimeout.run in *. simpl.
      rewrite (IH _ ms); simpl; rewrite ?Hp, ?Ht, ?Hr; trivial.
    + change (PromiseTimeout.raced
                (PromiseTimeout.run (PromiseTimeout.settles (JS.Fulfilled v) r) es)
              = JS.Fulfilled v).
      rewrite raced_run_stable; simpl; rewrite Hp, Ht, Hr; reflexivity.
    + change (PromiseTimeout.raced
                (PromiseTimeout.run (PromiseTimeout.settles (JS.Rejected m) r) es)
              = JS.Rejected m).
      rewrite raced_run_stable; simpl; rewrite Hp, Ht, Hr; reflexivity.
  - change (PromiseTimeout.raced (PromiseTimeout.run (PromiseTimeout.fires r) es)
            = JS.Rejected (PromiseTimeout.errorMessage r)).
    rewrite raced_run_stable; unfold PromiseTimeout.fires; rewrite Hi; simpl;
      rewrite Hp, Ht, Hr; reflexivity.
Qed.

(** The timer changes only when it expires. *)
Lemma id_run es : forall r,
  PromiseTimeout.id (PromiseTimeout.run r es) =
  if existsb Contract.is_TimerFires es then
    match PromiseTimeout.id r with
    | JS.Armed _ => JS.Expired
    | t => t
    end
  else PromiseTimeout.id r.
Proof.
  induction es as [|e es IH]; intros r; simpl; trivial.
  unfold PromiseTimeout.run in *. simpl. rewrite IH.
  destruct e as [o|]; simpl; trivial.
  unfold PromiseTimeout.fires.
  destruct (PromiseTimeout.id r) eqn:E; simpl; rewrite ?E;
    destruct (existsb Contract.is_TimerFires es); reflexivity.
Qed.

End TimeoutRaceFacts.

(** ** Strings *)

Lemma prefix_empty s : String.prefix "" s = true.
Proof. now destruct s. Qed.

Lemma prefix_app p s : String.prefix p (p ++ s) = true.
Proof.
  induction p as [|a p IH]; simpl.
  - apply prefix_empty.
  - destruct (ascii_dec a a); [exact IH | congruence].
Qed.

Lemma includes_prefix s p : String.prefix p s = true -> JS.includes s p = true.
Proof. intros H. destruct s; cbn [JS.includes]; rewrite H; reflexivity. Qed.


Lemma includes_later pre s p :
  JS.includes s p = true -> JS.includes (pre ++ s) p = true.
Proof.
  intros H. induction pre as [|a pre IH]; trivial.
  cbn [append JS.includes]. rewrite IH. apply orb_true_r.
Qed.

Lemma includes_self p : JS.includes p p = true.
Proof.
  apply includes_prefix. induction p as [|a p IH]; simpl; trivial.
  destruct (ascii_dec a a); [exact IH | congruence].
Qed.


Lemma executed_report_names port :
  JS.includes (Send.executed_report port) port = true.
Proof. unfold Send.executed_report. apply includes_later, includes_self. Qed.

(** What ['auto-attach'] tests on a report. *)
Lemma connected_report_startsWith port :
  JS.startsWith (Send.connected_report port) "Successfully connected" = true.
Proof.
  unfold JS.startsWith, Send.connected_report.
  change ("Successfully connected to Opiumware on port: " ++ port ++ " (no script sent)")
    with ("Successfully connected" ++
          (" to Opiumware on port: " ++ port ++ " (no script sent)")).
  apply prefix_app.
Qed.

Lemma failure_report_startsWith port message :
  JS.startsWith (Send.failure_report port message) "Successfully connected" = false.
Proof. reflexivity. Qed.

Lemma timer_fired_settles A (msg : string) (es : list (PromiseTimeout.Event A)) :
  existsb Contract.is_TimerFires es = true ->
  JS.settled (Contract.whichever_settles_first msg es) = true.
Proof.
  induction es as [|e es IH]; simpl; [discriminate|].
  destruct e as [[|v|m]|]; simpl; auto.
Qed.

(** C6 (as amended).  In the Timeout Race the timer is cleared only inside its
    own callback: it stays armed exactly until it expires, also after the
    wrapped operation has settled.  The race settles with whichever of the
    operation's outcome and the timeout error comes first; it has settled
    once the timer has expired, and what happens later does not change it. *)
Theorem promiseTimeout_first_outcome_timer_own_expiry
    A (promise : JS.Promise A) (ms : Z) (errorMessage : string)
    (es : list (PromiseTimeout.Event A)) :
  let r := PromiseTimeout.run
             (PromiseTimeout.promiseTimeout promise ms errorMessage) es in
  PromiseTimeout.raced r =
    JS.settle promise (Contract.whichever_settles_first errorMessage es)
  /\ (PromiseTimeout.id r = JS.Armed ms <->
      existsb Contract.is_TimerFires es = false)
  /\ (existsb Contract.is_TimerFires es = true ->
      JS.settled (PromiseTimeout.raced r) = true)
  /\ (forall es',
        JS.settled (PromiseTimeout.raced r) = true ->
        PromiseTimeout.raced (PromiseTimeout.run r es') = PromiseTimeout.raced r).
Proof.
  intros r.
  assert (Hraced : PromiseTimeout.raced r =
            JS.settle promise (Contract.whichever_settles_first errorMessage es)).
  { subst r. destruct promise as [|v|m].
    - simpl JS.settle.
      now rewrite (raced_run_pending es _ ms).
    - rewrite raced_run_stable; reflexivity.
    - rewrite raced_run_stable; reflexivity. }
  split; [exact Hraced|]. split; [|split].
  - subst r. rewrite id_run. simpl.
    destruct (existsb Contract.is_TimerFires es); split; congruence.
  - intros Hfired. rewrite Hraced.
    destruct promise; simpl; trivial.
    now apply timer_fired_settles.
  - intros es' Hs. now apply raced_run_stable.
Qed.

(** C6, as stated, fails: the wrapped operation settles first, and the timer
    is still armed. *)
Lemma promiseTimeout_timer_left_armed :
  let r := PromiseTimeout.run
             (PromiseTimeout.promiseTimeout JS.Pending 3000
                "Connection to port 8392 timed out")
             [PromiseTimeout.Settles (JS.Fulfilled tt)] in
  PromiseTimeout.raced r = JS.Fulfilled tt /\
  PromiseTimeout.id r = JS.Armed 3000.
Proof. split; reflexivity. Qed.

(** ** The codec inverts itself *)

Section ZlibFacts.
Local Open Scope list_scope.

(** *** Bits and bytes *)

Lemma bits_of_byte_length b : length (Zlib.bits_of_byte b) = 8.
Proof.
  unfold Zlib.bits_of_byte.
  destruct (Byte.to_bits b) as (b0 & b1 & b2 & b3 & b4 & b5 & b6 & b7).
  reflexivity.
Qed.

Lemma bits_of_bytes_length data :
  length (Zlib.bits_of_bytes data) = 8 * length data.
Proof.
  induction data as [|b data IH]; trivial.
  unfold Zlib.bits_of_bytes in *. cbn [flat_map].
  rewrite length_app, IH, bits_of_byte_length. simpl. lia.
Qed.

Lemma bits_of_bytes_app a b :
  Zlib.bits_of_bytes (a ++ b) = Zlib.bits_of_bytes a ++ Zlib.bits_of_bytes b.
Proof. apply flat_map_app. Qed.

Lemma bytes_of_bits_byte b rest :
  Zlib.bytes_of_bits (Zlib.bits_of_byte b ++ rest) =
  b :: Zlib.bytes_of_bits rest.
Proof.
  unfold Zlib.bits_of_byte.
  destruct (Byte.to_bits b) as (b0 & b1 & b2 & b3 & b4 & b5 & b6 & b7) eqn:E.
  cbn [app Zlib.bytes_of_bits]. f_equal.
  rewrite <- E. apply Byte.of_bits_to_bits.
Qed.

Lemma bytes_of_bits_of_bytes data :
  Zlib.bytes_of_bits (Zlib.bits_of_bytes data) = data.
Proof.
  induction data as [|b data IH]; trivial.
  unfold Zlib.bits_of_bytes in *. cbn [flat_map].
  now rewrite bytes_of_bits_byte, IH.
Qed.

Lemma bits_of_byte_of_bits b0 b1 b2 b3 b4 b5 b6 b7 :
  Zlib.bits_of_byte
    (Byte.of_bits (b0, (b1, (b2, (b3, (b4, (b5, (b6, b7)))))))) =
  [b0; b1; b2; b3; b4; b5; b6; b7].
Proof. unfold Zlib.bits_of_byte. now rewrite Byte.to_bits_of_bits. Qed.

(** Packing bits into bytes adds the zeros that fill the last byte. *)
Lemma bits_of_bytes_of_bits_upto n : forall bs,
  length bs <= n ->
  exists pad,
    Zlib.bits_of_bytes (Zlib.bytes_of_bits bs) = bs ++ pad /\
    length pad < 8 /\ (length bs + length pad) mod 8 = 0.
Proof.
  induction n as [n IH] using lt_wf_ind. intros bs Hn.
  destruct bs as [|b0 [|b1 [|b2 [|b3 [|b4 [|b5 [|b6 [|b7 rest]]]]]]]].
  - exists []. repeat split. simpl. lia.
  - exists (repeat false 7). unfold Zlib.bytes_of_bits, Zlib.byte_of_bits,
      Zlib.bits_of_bytes. cbn [flat_map nth]. rewrite bits_of_byte_of_bits.
    repeat split. simpl. lia.
  - exists (repeat false 6). unfold Zlib.bytes_of_bits, Zlib.byte_of_bits,
      Zlib.bits_of_bytes. cbn [flat_map nth]. rewrite bits_of_byte_of_bits.
    repeat split. simpl. lia.
  - exists (repeat false 5). unfold Zlib.bytes_of_bits, Zlib.byte_of_bits,
      Zlib.bits_of_bytes. cbn [flat_map nth]. rewrite bits_of_byte_of_bits.
    repeat split. simpl. lia.
  - exists (repeat false 4). unfold Zlib.bytes_of_bits, Zlib.byte_of_bits,
      Zlib.bits_of_bytes. cbn [flat_map nth]. rewrite bits_of_byte_of_bits.
    repeat split. simpl. lia.
  - exists (repeat false 3). unfold Zlib.bytes_of_bits, Zlib.byte_of_bits,
      Zlib.bits_of_bytes. cbn [flat_map nth]. rewrite bits_of_byte_of_bits.
    repeat split. simpl. lia.
  - exists (repeat false 2). unfold Zlib.bytes_of_bits, Zlib.byte_of_bits,
      Zlib.bits_of_bytes. cbn [flat_map nth]. rewrite bits_of_byte_of_bits.
    repeat split. simpl. lia.
  - exists (repeat false 1). unfold Zlib.bytes_of_bits, Zlib.byte_of_bits,
      Zlib.bits_of_bytes. cbn [flat_map nth]. rewrite bits_of_byte_of_bits.
    repeat split. simpl. lia.
  - simpl in Hn.
    destruct (IH (length rest)) with (bs := rest) as (pad & H1 & H2 & H3);
      [lia | lia |].
    exists pad. cbn [Zlib.bytes_of_bits]. unfold Zlib.bits_of_bytes in *.
    cbn [flat_map]. rewrite bits_of_byte_of_bits, H1.
    split; [reflexivity|]. split; [exact H2|].
    cbn [length]. 
    replace (S (S (S (S (S (S (S (S (length rest)))))))) + length pad)
      with ((length rest + length pad) + 1 * 8) by lia.
    now rewrite Nat.Div0.mod_add.
Qed.

Lemma bits_of_bytes_of_bits bs :
  exists pad,
    Zlib.bits_of_bytes (Zlib.bytes_of_bits bs) = bs ++ pad /\
    length pad < 8 /\ (length bs + length pad) mod 8 = 0.
Proof. now apply (bits_of_bytes_of_bits_upto (length bs)). Qed.

Lemma take_app n : forall bs t r rest,
  Zlib.take n bs = Some (t, r) ->
  Zlib.take n (bs ++ rest) = Some (t, r ++ rest).
Proof.
  induction n as [|n IH]; intros bs t r rest; simpl.
  - now intros [= <- <-].
  - destruct bs as [|b bs]; [discriminate|]. simpl.
    destruct (Zlib.take n bs) as [[t' r']|] eqn:E; [|discriminate].
    intros [= <- <-]. now rewrite (IH _ _ _ rest E).
Qed.

Lemma decode_loop_app invalid symbols rest : forall counts code first index bs s r,
  Zlib.decode_loop invalid counts symbols code first index bs = inr (s, r) ->
  Zlib.decode_loop invalid counts symbols code first index (bs ++ rest) =
  inr (s, r ++ rest).
Proof.
  induction counts as [|count counts IH]; intros code first index bs s r;
    cbn [Zlib.decode_loop]; [discriminate|].
  destruct bs as [|b bs]; [discriminate|]. cbn [app].
  destruct (_ <? _)%N.
  - destruct (nth_error _ _); [|discriminate]. now intros [= <- <-].
  - apply IH.
Qed.

Lemma decode_app invalid h bs s r rest :
  Zlib.decode invalid h bs = inr (s, r) ->
  Zlib.decode invalid h (bs ++ rest) = inr (s, r ++ rest).
Proof. apply decode_loop_app. Qed.

Lemma read_extra_app table i bs v r rest :
  Zlib.read_extra table i bs = Some (v, r) ->
  Zlib.read_extra table i (bs ++ rest) = Some (v, r ++ rest).
Proof.
  unfold Zlib.read_extra.
  destruct (nth_error table (N.to_nat i)) as [[base extra]|]; [|discriminate].
  destruct (Zlib.take (N.to_nat extra) bs) as [[e r']|] eqn:E; [|discriminate].
  intros [= <- <-]. now rewrite (take_app _ _ _ _ rest E).
Qed.

End ZlibFacts.

Section ZlibTables.
Local Open Scope list_scope.

(** Checking a property of the numbers from [from] on, [n] of them. *)
Lemma iter_counts (f : N -> bool) n : forall from b,
  fst (N.iter n (fun p => (N.succ (fst p), snd p && f (fst p))) (from, b)) =
  (from + n)%N.
Proof.
  induction n as [|n IH] using N.peano_ind; intros from b.
  - simpl. now rewrite N.add_0_r.
  - rewrite N.iter_succ. cbn [fst]. rewrite IH. lia.
Qed.

Lemma iter_checked (f : N -> bool) n : forall from,
  snd (N.iter n (fun p => (N.succ (fst p), snd p && f (fst p))) (from, true)) =
  true ->
  forall v, (from <= v < from + n)%N -> f v = true.
Proof.
  induction n as [|n IH] using N.peano_ind; intros from H v Hv; [lia|].
  rewrite N.iter_succ in H. cbn [snd] in H.
  apply andb_true_iff in H. destruct H as [H1 H2].
  rewrite iter_counts in H2.
  destruct (N.eq_dec v (from + n)) as [->|Hne]; trivial.
  apply (IH from H1). lia.
Qed.

(** The fixed codes read back every literal and the end of block, every
    length and every distance: checked on each of them. *)
Lemma fixed_literals_checked :
  snd (N.iter 257
         (fun p =>
            (N.succ (fst p),
             snd p &&
             (fun s =>
                match Zlib.decode "invalid literal/length code"
                        Zlib.fixed_lencode (Zlib.fixed_code s) with
                | inr (s', []) => (s' =? s)%N
                | _ => false
                end) (fst p)))
         (0%N, true)) = true.
Proof. vm_cast_no_check (eq_refl true). Qed.

Lemma fixed_lengths_checked :
  snd (N.iter 256
         (fun p =>
            (N.succ (fst p),
             snd p &&
             (fun len =>
                match Zlib.decode "invalid literal/length code"
                        Zlib.fixed_lencode (Zlib.length_bits len) with
                | inr (s, bs) =>
                    (256 <? s)%N &&
                    match Zlib.read_extra Zlib.length_table (s - 257) bs with
                    | Some (v, []) => (v =? len)%N
                    | _ => false
                    end
                | _ => false
                end) (fst p)))
         (3%N, true)) = true.
Proof. vm_cast_no_check (eq_refl true). Qed.

Lemma fixed_distances_checked :
  snd (N.iter 32768
         (fun p =>
            (N.succ (fst p),
             snd p &&
             (fun dist =>
                match Zlib.decode "invalid distance code" Zlib.fixed_distcode
                        (Zlib.distance_bits dist) with
                | inr (s, bs) =>
                    match Zlib.read_extra Zlib.distance_table s bs with
                    | Some (v, []) => (v =? dist)%N
                    | _ => false
                    end
                | _ => false
                end) (fst p)))
         (1%N, true)) = true.
Proof. vm_cast_no_check (eq_refl true). Qed.

Lemma fixed_code_decodes s rest :
  (s <= 256)%N ->
  Zlib.decode "invalid literal/length code" Zlib.fixed_lencode
    (Zlib.fixed_code s ++ rest) = inr (s, rest).
Proof.
  intros H.
  pose proof (iter_checked _ _ _ fixed_literals_checked s) as Hc.
  cbv beta in Hc.
  destruct (Zlib.decode _ _ (Zlib.fixed_code s)) as [e|[s' [|b r]]] eqn:E;
    try (discriminate Hc; lia).
  apply (decode_app _ _ _ _ _ rest) in E. rewrite E. simpl.
  f_equal. f_equal. apply N.eqb_eq, Hc. lia.
Qed.

Lemma length_bits_read len rest :
  (3 <= len <= 258)%N ->
  exists s bs,
    Zlib.decode "invalid literal/length code" Zlib.fixed_lencode
      (Zlib.length_bits len ++ rest) = inr (s, bs ++ rest) /\
    (256 < s)%N /\
    Zlib.read_extra Zlib.length_table (s - 257) (bs ++ rest) =
      Some (len, rest).
Proof.
  intros H.
  pose proof (iter_checked _ _ _ fixed_lengths_checked len) as Hc.
  cbv beta in Hc.
  destruct (Zlib.decode _ _ (Zlib.length_bits len)) as [e|[s bs]] eqn:E;
    [discriminate Hc; lia|].
  exists s, bs. split; [now apply decode_app|].
  assert (Hc' := Hc ltac:(lia)). apply andb_true_iff in Hc'.
  destruct Hc' as [Hs Hr]. split; [now apply N.ltb_lt|].
  destruct (Zlib.read_extra Zlib.length_table (s - 257) bs)
    as [[v [|b r]]|] eqn:Er; try discriminate.
  apply N.eqb_eq in Hr. subst v.
  now apply (read_extra_app _ _ _ _ _ rest) in Er.
Qed.

Lemma distance_bits_read dist rest :
  (1 <= dist <= 32768)%N ->
  exists s bs,
    Zlib.decode "invalid distance code" Zlib.fixed_distcode
      (Zlib.distance_bits dist ++ rest) = inr (s, bs ++ rest) /\
    Zlib.read_extra Zlib.distance_table s (bs ++ rest) = Some (dist, rest).
Proof.
  intros H.
  pose proof (iter_checked _ _ _ fixed_distances_checked dist) as Hc.
  cbv beta in Hc.
  destruct (Zlib.decode _ _ (Zlib.distance_bits dist)) as [e|[s bs]] eqn:E;
    [discriminate Hc; lia|].
  exists s, bs. split; [now apply decode_app|].
  assert (Hr := Hc ltac:(lia)).
  destruct (Zlib.read_extra Zlib.distance_table s bs)
    as [[v [|b r]]|] eqn:Er; try discriminate.
  apply N.eqb_eq in Hr. subst v.
  now apply (read_extra_app _ _ _ _ _ rest) in Er.
Qed.

End ZlibTables.

Section ZlibRoundTrip.
Local Open Scope list_scope.

(** *** Matches *)

(** A match is what the copy of the decoder writes. *)
Lemma match_len_copy dist : forall len rout suf room,
  len <= Zlib.match_len dist rout suf room ->
  Zlib.copy dist len rout = Some (rev (firstn len suf) ++ rout) /\
  len <= length suf /\ len <= room.
Proof.
  induction len as [|len IH]; intros rout suf room H.
  - simpl. repeat split; lia.
  - destruct suf as [|b suf]; [destruct room; simpl in H; lia|].
    destruct room as [|room]; [simpl in H; lia|].
    cbn [Zlib.match_len Zlib.copy] in *.
    destruct (nth_error rout (Nat.pred dist)) as [c|]; [|lia].
    destruct (Byte.eqb b c) eqn:E; [|lia].
    apply Byte.byte_dec_bl in E. subst c.
    destruct (IH (b :: rout) suf room) as (H1 & H2 & H3); [lia|].
    rewrite H1. cbn [firstn rev length]. rewrite <- app_assoc.
    repeat split; simpl; lia.
Qed.

(** The longest match is a match, at one of the distances tried. *)
Lemma longest_match_found rout suf : forall hist dist best,
  let found := Zlib.longest_match hist dist rout suf best in
  found = best \/
  (fst found = Zlib.match_len (snd found) rout suf Zlib.max_match /\
   dist <= snd found < dist + length hist).
Proof.
  induction hist as [|h hist IH]; intros dist best; cbn [Zlib.longest_match].
  - now left.
  - cbv zeta.
    match goal with
    | |- context [Zlib.longest_match hist (S dist) rout suf ?b] =>
        destruct (IH (S dist) b) as [H|[H1 H2]]
    end.
    + rewrite H. destruct (_ <? _)%nat; [right|now left].
      simpl. split; trivial. lia.
    + right. split; trivial. simpl. lia.
Qed.

(** What the compressor calls a match the decoder can copy. *)
Lemma lz77_match rout suf len dist :
  Zlib.longest_match (firstn Zlib.window rout) 1 rout suf (0, 0) = (len, dist) ->
  3 <= len ->
  Zlib.copy dist len rout = Some (rev (firstn len suf) ++ rout) /\
  len <= length suf /\
  (3 <= N.of_nat len <= 258)%N /\ (1 <= N.of_nat dist <= 32768)%N.
Proof.
  intros E Hlen.
  destruct (longest_match_found rout suf (firstn Zlib.window rout) 1 (0, 0))
    as [H|[H1 H2]]; rewrite E in *.
  - injection H as -> _. lia.
  - cbn [fst snd] in *.
    destruct (match_len_copy dist len rout suf Zlib.max_match) as (C1 & C2 & C3);
      [lia|].
    rewrite length_firstn in H2. unfold Zlib.max_match in C3.
    unfold Zlib.window in H2.
    split; [exact C1|]. split; [exact C2|]. lia.
Qed.


(** *** Tokens *)

Lemma byte_of_N_to_N b : Zlib.byte_of_N (Byte.to_N b) = b.
Proof.
  unfold Zlib.byte_of_N. pose proof (Byte.to_N_bounded b).
  rewrite N.mod_small by lia. now rewrite Byte.of_to_N.
Qed.

Local Abbreviation fixed_codes fuel :=
  (Zlib.codes fuel Zlib.fixed_lencode Zlib.fixed_distcode).

Lemma codes_literal fuel b bs rout :
  fixed_codes (S fuel) (Zlib.fixed_code (Byte.to_N b) ++ bs) rout =
  fixed_codes fuel bs (b :: rout).
Proof.
  pose proof (Byte.to_N_bounded b) as Hb.
  cbn [Zlib.codes]. rewrite fixed_code_decodes by lia.
  destruct (N.ltb_spec (Byte.to_N b) 256); [|lia].
  now rewrite byte_of_N_to_N.
Qed.

Lemma codes_end fuel bs rout :
  fixed_codes (S fuel) (Zlib.fixed_code 256 ++ bs) rout = inr (bs, rout).
Proof.
  cbn [Zlib.codes]. rewrite fixed_code_decodes by lia. reflexivity.
Qed.

Lemma codes_match fuel len dist bs rout rout' :
  (3 <= N.of_nat len <= 258)%N ->
  (1 <= N.of_nat dist <= 32768)%N ->
  Zlib.copy dist len rout = Some rout' ->
  fixed_codes (S fuel)
    (Zlib.token_bits (Zlib.Match len dist) ++ bs) rout =
  fixed_codes fuel bs rout'.
Proof.
  intros Hlen Hdist Hcopy. cbn [Zlib.codes Zlib.token_bits].
  rewrite <- app_assoc.
  destruct (length_bits_read (N.of_nat len)
              (Zlib.distance_bits (N.of_nat dist) ++ bs) Hlen)
    as (s & b1 & Hd & Hs & Hr).
  rewrite Hd.
  destruct (N.ltb_spec s 256); [lia|].
  destruct (N.eqb_spec s 256); [lia|].
  rewrite Hr.
  destruct (distance_bits_read (N.of_nat dist) bs Hdist)
    as (ds & b2 & Hdd & Hdr).
  rewrite Hdd, Hdr, !Nat2N.id, Hcopy. reflexivity.
Qed.

Lemma bits_of_N_length width : forall n,
  length (Zlib.bits_of_N width n) = width.
Proof. induction width as [|w IH]; intros n; simpl; auto. Qed.

Lemma fixed_code_length s : 1 <= length (Zlib.fixed_code s).
Proof.
  unfold Zlib.fixed_code, Zlib.code_bits.
  repeat destruct (_ <? _)%N; rewrite length_rev, bits_of_N_length; lia.
Qed.

Lemma match_bits_length len dist :
  (3 <= N.of_nat len <= 258)%N ->
  1 <= length (Zlib.token_bits (Zlib.Match len dist)).
Proof.
  intros Hlen. cbn [Zlib.token_bits]. rewrite length_app.
  destruct (length_bits_read (N.of_nat len) [] Hlen) as (s & b1 & Hd & _).
  destruct (Zlib.length_bits (N.of_nat len)) as [|b l]; [|simpl; lia].
  discriminate Hd.
Qed.

(** The decoder reads the tokens of the compressor back; it is [skip] bytes
    ahead of the compressor after a match. *)
Lemma codes_lz77 : forall suf skip rout,
  skip <= length suf ->
  let tokens := Zlib.lz77 skip rout suf in
  length tokens <= length (flat_map Zlib.token_bits tokens) /\
  forall fuel rest,
    length tokens < fuel ->
    fixed_codes fuel
      (flat_map Zlib.token_bits tokens ++ Zlib.fixed_code 256 ++ rest)
      (rev (firstn skip suf) ++ rout) =
    inr (rest, rev suf ++ rout).
Proof.
  induction suf as [|b suf IH]; intros skip rout Hskip.
  - simpl in Hskip. replace skip with 0 by lia. cbn. split; [lia|].
    intros fuel rest Hf. destruct fuel as [|fuel]; [lia|].
    apply codes_end.
  - destruct skip as [|skip]; cbn [Zlib.lz77].
    + destruct (Zlib.longest_match (firstn Zlib.window rout) 1 rout (b :: suf)
                  (0, 0)) as [len dist] eqn:E.
      destruct (3 <=? len)%nat eqn:E3.
      * apply Nat.leb_le in E3.
        destruct (lz77_match rout (b :: suf) len dist E E3)
          as (Hc & Hl & Hlen & Hdist).
        destruct len as [|len]; [lia|]. cbn [Nat.pred].
        destruct (IH len (b :: rout)) as [IH1 IH2]; [simpl in Hl; lia|].
        cbv zeta. cbn [flat_map length firstn rev app].
        pose proof (match_bits_length (S len) dist Hlen) as Hb.
        split; [rewrite length_app; lia|].
        intros fuel rest Hf. destruct fuel as [|fuel]; [lia|].
        rewrite <- app_assoc.
        rewrite (codes_match fuel (S len) dist _ rout _ Hlen Hdist Hc).
        cbn [firstn rev]. rewrite <- app_assoc. cbn [app].
        rewrite IH2 by lia. now rewrite <- app_assoc.
      * destruct (IH 0 (b :: rout)) as [IH1 IH2]; [lia|].
        cbv zeta. cbn [flat_map length firstn rev app Zlib.token_bits].
        pose proof (fixed_code_length (Byte.to_N b)) as Hb.
        split; [rewrite length_app; lia|].
        intros fuel rest Hf. destruct fuel as [|fuel]; [lia|].
        rewrite <- app_assoc, codes_literal.
        cbn [firstn rev app] in IH2. rewrite IH2 by lia.
        now rewrite <- app_assoc.
    + destruct (IH skip (b :: rout)) as [IH1 IH2]; [simpl in Hskip; lia|].
      cbv zeta. split; [exact IH1|].
      intros fuel rest Hf. cbn [firstn rev]. rewrite <- !app_assoc. cbn [app].
      now apply IH2.
Qed.

End ZlibRoundTrip.

Section ZlibStream.
Local Open Scope list_scope.

Lemma bytes_eqb_refl a : Zlib.bytes_eqb a a = true.
Proof.
  induction a as [|x a IH]; trivial. simpl. rewrite IH.
  now rewrite (Byte.byte_dec_lb eq_refl : Byte.eqb x x = true).
Qed.

(** Behind the block: the zeros that fill its last byte, and the
    checksum. *)
Lemma trailer_found pad check :
  length pad < 8 -> length check = 4 ->
  Zlib.bytes_of_bits
    (skipn (length (pad ++ Zlib.bits_of_bytes check) mod 8)
       (pad ++ Zlib.bits_of_bytes check)) = check.
Proof.
  intros Hp Hc.
  rewrite length_app, bits_of_bytes_length, Hc.
  replace (length pad + 8 * 4) with (length pad + 4 * 8) by lia.
  rewrite Nat.Div0.mod_add, Nat.mod_small by lia.
  rewrite skipn_app, skipn_all, Nat.sub_diag. simpl.
  apply bytes_of_bits_of_bytes.
Qed.

(** Inflating what [deflate] made of the data gives the data back. *)
Lemma zlib_inflate_deflate data compressed :
  Zlib.deflate data = inr compressed -> Zlib.inflate compressed = inr data.
Proof.
  unfold Zlib.deflate.
  remember (Zlib.bytes_of_bits (Zlib.block_bits data)) as block eqn:Eb.
  remember (Zlib.be32 (Zlib.adler32 data)) as check eqn:Ec.
  intros [= <-]. cbn [app Zlib.inflate].
  replace (Zlib.header x78 x9c) with (@None string) by reflexivity.
  rewrite bits_of_bytes_app. subst block check.
  destruct (bits_of_bytes_of_bits (Zlib.block_bits data))
    as (pad & -> & Hpad & _).
  unfold Zlib.block_bits. rewrite <- !app_assoc.
  set (trailer := Zlib.bits_of_bytes (Zlib.be32 (Zlib.adler32 data))).
  cbn [app Zlib.blocks].
  destruct (codes_lz77 data 0 [] (Nat.le_0_l _)) as [Hn Hcodes].
  cbv zeta in Hn, Hcodes. cbn [firstn rev app] in Hcodes.
  rewrite Hcodes by (rewrite length_app; lia).
  rewrite app_nil_r, rev_involutive.
  subst trailer. rewrite trailer_found by (trivial; reflexivity).
  cbn [length Zlib.be32 Nat.ltb Nat.leb firstn].
  now rewrite bytes_eqb_refl.
Qed.

End ZlibStream.

(** ** The Socket Session *)

Section SendFacts.
Variable deflate : list byte -> string + list byte.
Variable throws : string -> option string.
Variable code : JS.Value.
Variable port : string.

Local Abbreviation run := (Send._connectAndSendInternal deflate throws code port).
Local Abbreviation step := (Send.step deflate code port).
Local Abbreviation start := (Send.start throws code port).

Lemma run_app es es' : run (es ++ es') = fold_left step es' (run es).
Proof. unfold Send._connectAndSendInternal. apply fold_left_app. Qed.

Lemma run_snoc es e : run (es ++ [e]) = step (run es) e.
Proof. now rewrite run_app. Qed.

(** Handlers touch the socket, the connection promise and the log only. *)
Lemma handlers_pc err hs : forall s,
  Send.pc (fold_left (Send.run_handler port err) hs s) = Send.pc s.
Proof.
  induction hs as [|h hs IH]; intros s; simpl; trivial.
  rewrite IH. now destruct h.
Qed.

Lemma handlers_outer err hs : forall s,
  Send.outer (fold_left (Send.run_handler port err) hs s) = Send.outer s.
Proof.
  induction hs as [|h hs IH]; intros s; simpl; trivial.
  rewrite IH. now destruct h.
Qed.

Lemma handlers_written err hs : forall s,
  Net.written (Send.client (fold_left (Send.run_handler port err) hs s)) =
  Net.written (Send.client s).
Proof.
  induction hs as [|h hs IH]; intros s; simpl; trivial.
  rewrite IH. now destruct h.
Qed.

Lemma handlers_quiet err hs : forall s,
  forallb Contract.quiet (Send.effects s) = true ->
  forallb Contract.quiet
    (Send.effects (fold_left (Send.run_handler port err) hs s)) = true.
Proof.
  induction hs as [|h hs IH]; intros s H; simpl; trivial.
  apply IH. destruct h; simpl; rewrite forallb_app, H; reflexivity.
Qed.

(** [resume] acts only on a session suspended on the connection. *)
Lemma resume_elsewhere s :
  Send.pc s <> Send.await_connect -> Send.resume code port s = s.
Proof. unfold Send.resume. destruct (Send.pc s); congruence. Qed.

Lemma resume_settled_when_returned s :
  Contract.settled_when_returned s ->
  Contract.settled_when_returned (Send.resume code port s).
Proof.
  destruct (Send.pc s) eqn:Epc;
    try (rewrite resume_elsewhere; [trivial | congruence]).
  unfold Contract.settled_when_returned, Send.resume, Send.after_connect,
    Send.catch_block.
  rewrite Epc. intros Ho.
  destruct (PromiseTimeout.raced (Send.connection s)) as [|[]|m]; simpl.
  - now rewrite Epc.
  - destruct (Send.has_payload code); simpl; rewrite ?Ho; simpl; eauto.
  - rewrite Ho. simpl. eauto.
Qed.

(** The caller's promise is settled exactly when the executor has returned. *)
Lemma step_settled_when_returned s e :
  Contract.settled_when_returned s ->
  Contract.settled_when_returned (step s e).
Proof.
  intros H. destruct e as [ev| | |]; simpl.
  - destruct (Net.emit (Net.name ev) (Send.client s)) as [hs c'].
    apply resume_settled_when_returned.
    unfold Contract.settled_when_returned.
    now rewrite handlers_pc, handlers_outer.
  - now apply resume_settled_when_returned.
  - unfold Contract.settled_when_returned in *.
    destruct (Send.pc s) eqn:Epc; rewrite ?Epc; trivial.
    unfold Send.after_compress, Encoder.compressData.
    destruct (deflate plaintextBuffer); simpl; rewrite H; simpl; eauto.
  - unfold Contract.settled_when_returned in *.
    destruct (Send.pc s) eqn:Epc; rewrite ?Epc; trivial.
    simpl. rewrite H. simpl. eauto.
Qed.

Lemma start_settled_when_returned : Contract.settled_when_returned start.
Proof.
  unfold Send.start, Net.connect. simpl.
  destruct (throws port); apply resume_settled_when_returned; reflexivity.
Qed.

Lemma run_settled_when_returned es : Contract.settled_when_returned (run es).
Proof.
  induction es as [|e es IH] using rev_ind.
  - apply start_settled_when_returned.
  - rewrite run_snoc. now apply step_settled_when_returned.
Qed.

(** The executor never comes back to the wait for the connection. *)
Lemma step_pc_await_connect s e :
  Send.pc (step s e) = Send.await_connect -> Send.pc s = Send.await_connect.
Proof.
  assert (Hres : forall s', Send.pc (Send.resume code port s') = Send.await_connect ->
                            Send.pc s' = Send.await_connect).
  { intros s'. unfold Send.resume, Send.after_connect, Send.catch_block.
    destruct (Send.pc s') eqn:E; trivial; intros H; try congruence. }
  destruct e as [ev| | |]; simpl.
  - destruct (Net.emit (Net.name ev) (Send.client s)) as [hs c'].
    intros H. apply Hres in H. now rewrite handlers_pc in H.
  - intros H. now apply Hres in H.
  - destruct (Send.pc s) eqn:E; trivial; rewrite ?E; try congruence.
    unfold Send.after_compress, Encoder.compressData.
    destruct (deflate plaintextBuffer); simpl; congruence.
  - destruct (Send.pc s) eqn:E; trivial; rewrite ?E; try congruence.
    simpl. congruence.
Qed.

Lemma start_connecting :
  throws port = None -> start = Contract.connecting port.
Proof. intros H. unfold Send.start, Net.connect. now rewrite H. Qed.

Lemma start_throws message :
  throws port = Some message ->
  Send.pc start = Send.returned /\
  Send.outer start = JS.Fulfilled (Send.failure_report port message) /\
  Send.effects start =
    [Send.socket_destroy;
     Send.console_error (Send.failure_report port message);
     Send.resolve_call (Send.failure_report port message)] /\
  Net.destroyed (Send.client start) = true.
Proof. intros H. unfold Send.start, Net.connect. rewrite H. repeat split. Qed.

Lemma start_pc_await_connect :
  Send.pc start = Send.await_connect -> throws port = None.
Proof.
  destruct (throws port) as [m|] eqn:E; trivial.
  destruct (start_throws m E) as [H _]. congruence.
Qed.

(** In the Connecting state the events of the later waits do nothing. *)
Lemma connecting_step_post e :
  Contract.post_connect e = true ->
  step (Contract.connecting port) e = Contract.connecting port.
Proof. destruct e as [ev| | |]; try discriminate; reflexivity. Qed.

Lemma connecting_step_leaves e :
  Contract.post_connect e = false ->
  Send.pc (step (Contract.connecting port) e) <> Send.await_connect.
Proof.
  destruct e as [[|m|]| | |]; try discriminate; intros _; simpl; try discriminate.
  unfold Send.resume, Send.after_connect. simpl.
  destruct (Send.has_payload code); discriminate.
Qed.

(** A session that still waits for the connection is in the Connecting
    state, and has only seen events of the later waits. *)
Lemma await_connect_connecting es :
  Send.pc (run es) = Send.await_connect ->
  run es = Contract.connecting port /\ throws port = None /\
  forallb Contract.post_connect es = true.
Proof.
  induction es as [|e es IH] using rev_ind; intros H.
  - simpl in *. pose proof (start_pc_await_connect H) as Ht.
    now rewrite <- (start_connecting Ht).
  - rewrite run_snoc in *. pose proof (step_pc_await_connect _ _ H) as Hs.
    destruct (IH Hs) as (Hrun & Ht & Hall). rewrite Hrun in *.
    destruct (Contract.post_connect e) eqn:Ee.
    + rewrite connecting_step_post by trivial.
      repeat split; trivial. rewrite forallb_app, Hall. simpl. now rewrite Ee.
    + now apply connecting_step_leaves in Ee.
Qed.

(** Leaving the Connecting state by a failure: the socket is destroyed, then
    the failure is logged and reported; nothing else changes. *)
Lemma connecting_step_failure e message :
  Contract.connect_failure port e = Some message ->
  let s' := step (Contract.connecting port) e in
  Send.outer s' = JS.Fulfilled (Send.failure_report port message) /\
  Send.pc s' = Send.returned /\
  Send.client s' = Net.destroy (Send.client (Contract.connecting port)) /\
  exists before,
    Send.effects s' =
      (before ++
       [Send.socket_destroy;
        Send.console_error (Send.failure_report port message);
        Send.resolve_call (Send.failure_report port message)])%list /\
    forall report, ~ In (Send.resolve_call report) before.
Proof.
  destruct e as [[|m|]| | |]; simpl; try discriminate;
    intros [= <-]; repeat split.
  - exists [Send.socket_destroy]. split; [reflexivity|].
    intros r [H|[]]. discriminate.
  - exists [Send.socket_destroy]. split; [reflexivity|].
    intros r [H|[]]. discriminate.
  - exists []. split; [reflexivity|]. intros r [].
Qed.

(** Leaving the Connecting state by the connection. *)
Lemma connecting_step_connect :
  let s' := step (Contract.connecting port) (Send.Sock Net.Connect) in
  if Send.has_payload code then
    Send.pc s' = Send.await_compress (JS.Buffer_from code) /\
    Send.outer s' = JS.Pending /\
    Net.written (Send.client s') = [] /\
    Send.effects s' =
      [Send.console_log
         ("Successfully connected to Opiumware on port: " ++ port);
       Send.deflate_call (JS.Buffer_from code)]
  else
    Send.pc s' = Send.returned /\
    Send.outer s' = JS.Fulfilled (Send.connected_report port) /\
    Net.written (Send.client s') = [] /\
    Net.ended (Send.client s') = true /\
    Net.destroyed (Send.client s') = false /\
    Send.effects s' =
      [Send.console_log
         ("Successfully connected to Opiumware on port: " ++ port);
       Send.socket_end;
       Send.resolve_call (Send.connected_report port)].
Proof.
  simpl. unfold Send.resume, Send.after_connect. simpl.
  destruct (Send.has_payload code); simpl; repeat split.
Qed.

(** A settled promise stays as it is. *)
Lemma step_outer_stable s e :
  JS.settled (Send.outer s) = true -> Send.outer (step s e) = Send.outer s.
Proof.
  intros H.
  assert (Hres : forall s', JS.settled (Send.outer s') = true ->
                  Send.outer (Send.resume code port s') = Send.outer s').
  { intros s' H'. unfold Send.resume, Send.after_connect, Send.catch_block.
    destruct (Send.pc s'); trivial.
    destruct (PromiseTimeout.raced (Send.connection s')) as [|[]|m]; trivial;
      [destruct (Send.has_payload code)|]; simpl; trivial;
      now apply settle_settled. }
  destruct e as [ev| | |]; simpl.
  - destruct (Net.emit (Net.name ev) (Send.client s)) as [hs c'].
    rewrite Hres; rewrite handlers_outer; trivial.
  - now rewrite Hres.
  - destruct (Send.pc s); trivial.
    unfold Send.after_compress, Encoder.compressData.
    destruct (deflate plaintextBuffer); simpl; trivial.
    now apply settle_settled.
  - destruct (Send.pc s); trivial. simpl. now apply settle_settled.
Qed.


(** Once returned, always returned. *)
Lemma step_pc_returned s e :
  Send.pc s = Send.returned -> Send.pc (step s e) = Send.returned.
Proof.
  intros H. destruct e as [ev| | |]; simpl; rewrite ?H; trivial.
  - destruct (Net.emit (Net.name ev) (Send.client s)) as [hs c'].
    rewrite resume_elsewhere; rewrite handlers_pc; simpl; congruence.
  - rewrite resume_elsewhere; simpl; congruence.
Qed.

(** The socket's written chunks change only when the executor writes. *)
Lemma step_written_elsewhere s e :
  Send.pc s <> Send.await_connect ->
  (forall b, Send.pc s <> Send.await_compress b) ->
  Net.written (Send.client (step s e)) = Net.written (Send.client s).
Proof.
  intros H1 H2. destruct e as [ev| | |]; simpl.
  - destruct (Net.emit (Net.name ev) (Send.client s)) as [hs c'] eqn:E.
    rewrite resume_elsewhere by (rewrite handlers_pc; trivial).
    rewrite handlers_written. simpl.
    unfold Net.emit in E. now injection E as _ <-.
  - rewrite resume_elsewhere; trivial.
  - destruct (Send.pc s) eqn:Epc; trivial. now destruct (H2 plaintextBuffer).
  - destruct (Send.pc s) eqn:Epc; trivial.
Qed.

(** While the executor waits for the codec or for the flush, any other
    event leaves it waiting, and writes nothing. *)
Lemma step_waits s e :
  match Send.pc s, e with
  | Send.await_compress _, Send.DeflateDone => False
  | Send.await_flush _, Send.WriteFlushed => False
  | Send.await_compress _, _ | Send.await_flush _, _ => True
  | _, _ => False
  end ->
  Send.pc (step s e) = Send.pc s /\
  Send.outer (step s e) = Send.outer s /\
  Net.written (Send.client (step s e)) = Net.written (Send.client s).
Proof.
  intros H.
  assert (Hpc : Send.pc s <> Send.await_connect)
    by (destruct (Send.pc s), e; congruence || contradiction).
  destruct e as [ev| | |]; simpl.
  - destruct (Net.emit (Net.name ev) (Send.client s)) as [hs c'] eqn:E.
    rewrite resume_elsewhere by (rewrite handlers_pc; trivial).
    rewrite handlers_pc, handlers_outer, handlers_written. simpl.
    repeat split.
  - rewrite resume_elsewhere by trivial. repeat split.
  - destruct (Send.pc s) eqn:Epc; try contradiction; rewrite ?Epc;
      repeat split.
  - destruct (Send.pc s) eqn:Epc; try contradiction; rewrite ?Epc;
      repeat split.
Qed.

(** What is on the wire follows the executor. *)
Lemma run_wire_invariant es : Contract.wire_invariant deflate code (run es).
Proof.
  induction es as [|e es IH] using rev_ind.
  - unfold Contract.wire_invariant, Send._connectAndSendInternal.
    cbn [fold_left].
    destruct (throws port) as [m|] eqn:Et.
    + destruct (start_throws m Et) as (-> & _); trivial.
    + now rewrite (start_connecting Et).
  - rewrite run_snoc. unfold Contract.wire_invariant in *.
    destruct (Send.pc (run es)) eqn:Epc.
    + destruct (await_connect_connecting es Epc) as (-> & _ & _).
      destruct e as [[|m|]| | |]; try exact I.
      pose proof connecting_step_connect as H.
      destruct (Send.has_payload code) eqn:Ep.
      * destruct H as (-> & _ & Hw & _). auto.
      * now destruct H as (-> & _).
    + destruct IH as (Hp & Hb & Hw).
      pose proof (step_waits (run es) e) as Hk. rewrite Epc in Hk.
      destruct e as [ev| | |];
        try (destruct (Hk I) as (Hk1 & _ & Hk2); rewrite Hk1, Hk2;
             now auto).
      simpl. rewrite Epc. unfold Send.after_compress, Encoder.compressData.
      destruct (deflate plaintextBuffer) as [m|c] eqn:Ed; simpl; trivial.
      rewrite Hw. subst plaintextBuffer. auto.
    + destruct IH as (Hp & Hd & Hw).
      pose proof (step_waits (run es) e) as Hk. rewrite Epc in Hk.
      destruct e as [ev| | |];
        try (destruct (Hk I) as (Hk1 & _ & Hk2); rewrite Hk1, Hk2;
             now auto).
      simpl. now rewrite Epc.
    + now rewrite (step_pc_returned _ e Epc).
Qed.

(** The write is flushed: the callback logs the byte count, ends the
    connection and resolves with the report of the port. *)
Lemma flush_step s compressedData :
  Send.pc s = Send.await_flush compressedData ->
  Send.outer s = JS.Pending ->
  let s' := step s Send.WriteFlushed in
  Send.outer s' = JS.Fulfilled (Send.executed_report port) /\
  Send.pc s' = Send.returned /\
  Net.written (Send.client s') = Net.written (Send.client s) /\
  Net.ended (Send.client s') = true /\
  Send.effects s' =
    (Send.effects s ++
     [Send.console_log
        ("Script sent to port " ++ port ++ " (" ++
         JS.show (length compressedData) ++ " bytes)");
      Send.socket_end;
      Send.resolve_call (Send.executed_report port)])%list.
Proof.
  intros Hpc Ho. simpl. rewrite Hpc. simpl. rewrite Ho.
  repeat split. now rewrite <- !app_assoc.
Qed.



Lemma step_quiet_returned s e :
  Send.pc s = Send.returned ->
  forallb Contract.quiet (Send.effects s) = true ->
  forallb Contract.quiet (Send.effects (step s e)) = true.
Proof.
  intros Hpc Hq. destruct e as [ev| | |]; simpl; rewrite ?Hpc; trivial.
  - destruct (Net.emit (Net.name ev) (Send.client s)) as [hs c'].
    rewrite resume_elsewhere by (rewrite handlers_pc; simpl; congruence).
    now apply handlers_quiet.
  - rewrite resume_elsewhere by (simpl; congruence). exact Hq.
Qed.

(** Without payload the session never encodes and never writes. *)
Lemma step_sentinel_invariant s e :
  Send.has_payload code = false ->
  Contract.sentinel_invariant port s ->
  Contract.sentinel_invariant port (step s e).
Proof.
  intros Hp [->|(Hpc & Hw & Hq & Ho)].
  - destruct e as [[|m|]| | |]; try (left; reflexivity); right;
      try (split; [reflexivity|split; [reflexivity|split; [reflexivity|]]];
           right; eexists; reflexivity).
    pose proof connecting_step_connect as H. rewrite Hp in H.
    destruct H as (H1 & H2 & H3 & _ & _ & H4).
    rewrite H4. repeat split; auto.
  - right. split; [now apply step_pc_returned|].
    split; [rewrite step_written_elsewhere; congruence|].
    split; [now apply step_quiet_returned|].
    rewrite step_outer_stable; trivial.
    destruct Ho as [->|[m ->]]; reflexivity.
Qed.

Lemma start_sentinel_invariant : Contract.sentinel_invariant port start.
Proof.
  destruct (throws port) as [m|] eqn:Et.
  - right. destruct (start_throws m Et) as (H1 & H2 & H3 & _).
    rewrite H3. repeat split; eauto.
    unfold Send.start, Net.connect. now rewrite Et.
  - left. now apply start_connecting.
Qed.

Lemma run_sentinel_invariant es :
  Send.has_payload code = false ->
  Contract.sentinel_invariant port (run es).
Proof.
  intros Hp. induction es as [|e es IH] using rev_ind.
  - apply start_sentinel_invariant.
  - rewrite run_snoc. now apply step_sentinel_invariant.
Qed.




(** A session that has not returned is pending. *)
Lemma waiting_pending es :
  Send.pc (run es) <> Send.returned -> Send.outer (run es) = JS.Pending.
Proof.
  intros Hpc. pose proof (run_settled_when_returned es) as H.
  unfold Contract.settled_when_returned in H.
  destruct (Send.pc (run es)); congruence.
Qed.

(** What was handed to the socket, at any time: nothing, or the one chunk
    the codec made of the payload. *)
Lemma run_written es :
  Net.written (Send.client (run es)) = [] \/
  exists compressedData,
    Net.written (Send.client (run es)) = [compressedData] /\
    deflate (JS.Buffer_from code) = inr compressedData /\
    Send.has_payload code = true.
Proof.
  induction es as [|e es IH] using rev_ind.
  - left. unfold Send._connectAndSendInternal. cbn [fold_left].
    destruct (throws port) as [m|] eqn:Et.
    + unfold Send.start, Net.connect. now rewrite Et.
    + now rewrite (start_connecting Et).
  - rewrite run_snoc.
    pose proof (run_wire_invariant es) as Hw.
    unfold Contract.wire_invariant in Hw.
    destruct (Send.pc (run es)) eqn:Epc.
    + destruct (await_connect_connecting es Epc) as (-> & _ & _).
      destruct e as [[|m|]| | |]; try (left; reflexivity).
      pose proof connecting_step_connect as H. cbv zeta in H.
      destruct (Send.has_payload code); left; tauto.
    + destruct Hw as (Hp & -> & Hw).
      pose proof (step_waits (run es) e) as Hk. rewrite Epc in Hk.
      destruct e as [ev| | |];
        try (destruct (Hk I) as (_ & _ & ->); now left).
      simpl. rewrite Epc. unfold Send.after_compress, Encoder.compressData.
      destruct (deflate (JS.Buffer_from code)) as [m|c] eqn:Ed; simpl.
      * now left.
      * right. exists c. rewrite Hw. auto.
    + destruct Hw as (Hp & Hd & Hw).
      pose proof (step_waits (run es) e) as Hk. rewrite Epc in Hk.
      right. exists compressedData.
      destruct e as [ev| | |];
        try (destruct (Hk I) as (_ & _ & ->); now auto).
      simpl. rewrite Epc. simpl. auto.
    + rewrite step_written_elsewhere; trivial; congruence.
Qed.

End SendFacts.

(** Two codes without payload cannot be told apart. *)
Lemma sentinel_runs_agree deflate throws port code1 code2 es :
  Send.has_payload code1 = false ->
  Send.has_payload code2 = false ->
  Send._connectAndSendInternal deflate throws code1 port es =
  Send._connectAndSendInternal deflate throws code2 port es.
Proof.
  intros H1 H2.
  assert (Hres : forall s, Send.resume code1 port s = Send.resume code2 port s).
  { intros s. unfold Send.resume, Send.after_connect. now rewrite H1, H2. }
  assert (Hstep : forall s e,
            Send.step deflate code1 port s e = Send.step deflate code2 port s e).
  { intros s [ev| | |]; simpl; trivial; apply Hres. }
  unfold Send._connectAndSendInternal.
  replace (Send.start throws code2 port) with (Send.start throws code1 port).
  - generalize (Send.start throws code1 port).
    induction es as [|e es IH]; intros s; simpl; trivial.
    rewrite Hstep. apply IH.
  - unfold Send.start.
    destruct (Net.connect throws port (Some Send.connect_callback) Net.new)
      as [c [m|]]; apply Hres.
Qed.

(** The codes without payload. *)
Lemma has_payload_false code :
  code = JS.Str "NULL" \/ JS.truthy code = false ->
  Send.has_payload code = false.
Proof.
  unfold Send.has_payload. intros [->| ->]; reflexivity.
Qed.

(** ** The Socket Session: what the specification says of it *)

Section SendClaims.
Variable deflate : list byte -> string + list byte.
Variable throws : string -> option string.
Variable code : JS.Value.
Variable port : string.

Local Abbreviation send := (Send._connectAndSendInternal deflate throws code port).


(** C9.  A send attempt that leaves the Connecting state by a connection
    error or by either of the two timeouts destroys its socket, then logs and
    resolves the failure report: the destruction comes before the report,
    nothing was reported before, and the socket is otherwise as it was. *)
Theorem send_failure_destroys_socket_first
    (es : list Send.Event) (e : Send.Event) (message : string) :
  Send.pc (send es) = Send.await_connect ->
  Contract.connect_failure port e = Some message ->
  let s := send es in
  let s' := send (es ++ [e]) in
  Send.pc s' = Send.returned /\
  Send.outer s' = JS.Fulfilled (Send.failure_report port message) /\
  Send.client s' = Net.destroy (Send.client s) /\
  Net.destroyed (Send.client s') = true /\
  Net.written (Send.client s') = [] /\
  Net.ended (Send.client s') = false /\
  exists before,
    Send.effects s' =
      (Send.effects s ++ before ++
       [Send.socket_destroy;
        Send.console_error (Send.failure_report port message);
        Send.resolve_call (Send.failure_report port message)])%list /\
    forall report, ~ In (Send.resolve_call report) (Send.effects s ++ before).
Proof.
  intros Hpc Hf s s'. subst s s'. rewrite run_snoc.
  destruct (await_connect_connecting deflate throws code port es Hpc) as (-> & _).
  destruct (connecting_step_failure deflate code port e message Hf)
    as (Ho & Hp & Hc & before & He & Hno).
  rewrite Ho, Hp, Hc, He. repeat split.
  exists before. split; trivial.
Qed.

(** C5 (as amended).  When a send with a payload has connected and the
    write is flushed, the operation resolves with the success report, which
    names the port and nothing else; the number of bytes sent goes to the
    console.  What was written is the payload as the codec compressed it. *)
Theorem send_flushed_reports_port
    (es : list Send.Event) (compressedData : list byte) :
  Send.pc (send es) = Send.await_flush compressedData ->
  let s' := send (es ++ [Send.WriteFlushed]) in
  Send.outer s' = JS.Fulfilled (Send.executed_report port) /\
  Send.executed_report port = "Successfully executed script on port: " ++ port /\
  JS.includes (Send.executed_report port) port = true /\
  Send.has_payload code = true /\
  deflate (JS.Buffer_from code) = inr compressedData /\
  Net.written (Send.client s') = [compressedData] /\
  Send.effects s' =
    (Send.effects (send es) ++
     [Send.console_log
        ("Script sent to port " ++ port ++ " (" ++
         JS.show (length compressedData) ++ " bytes)");
      Send.socket_end;
      Send.resolve_call (Send.executed_report port)])%list.
Proof.
  intros Hpc s'. subst s'. rewrite run_snoc.
  pose proof (run_wire_invariant deflate throws code port es) as Hw.
  unfold Contract.wire_invariant in Hw. rewrite Hpc in Hw.
  destruct Hw as (Hp & Hd & Hw).
  assert (Ho : Send.outer (send es) = JS.Pending)
    by (apply waiting_pending; congruence).
  destruct (flush_step deflate code port (send es) compressedData Hpc Ho)
    as (H1 & _ & H3 & _ & H5).
  rewrite H1, H3, H5, Hw. repeat split; trivial.
  apply executed_report_names.
Qed.


End SendClaims.

(** ** More on the Socket Session *)

Section SendMore.
Variable deflate : list byte -> string + list byte.
Variable throws : string -> option string.
Variable code : JS.Value.
Variable port : string.

Local Abbreviation send := (Send._connectAndSendInternal deflate throws code port).
Local Abbreviation step := (Send.step deflate code port).

Lemma reports_app a b :
  Observe.reports (a ++ b) = (Observe.reports a ++ Observe.reports b)%list.
Proof. apply flat_map_app. Qed.

Lemma handlers_reports err hs : forall s,
  Observe.reports (Send.effects (fold_left (Send.run_handler port err) hs s)) =
  Observe.reports (Send.effects s).
Proof.
  induction hs as [|h hs IH]; intros s; simpl; trivial.
  rewrite IH. destruct h; simpl; rewrite !reports_app; simpl;
    now rewrite ?app_nil_r.
Qed.

Lemma handlers_released err hs : forall s,
  Observe.released s = true ->
  Observe.released (fold_left (Send.run_handler port err) hs s) = true.
Proof.
  induction hs as [|h hs IH]; intros s H; simpl; trivial.
  apply IH. unfold Observe.released in *.
  destruct h; simpl; trivial; apply orb_true_r.
Qed.

Lemma fold_outer_stable es : forall s,
  JS.settled (Send.outer s) = true ->
  Send.outer (fold_left step es s) = Send.outer s.
Proof.
  induction es as [|e es IH]; intros s H; simpl; trivial.
  rewrite IH; rewrite step_outer_stable; trivial.
Qed.

Lemma resume_resolved_as_reported s :
  Observe.resolved_as_reported s ->
  Observe.resolved_as_reported (Send.resume code port s).
Proof.
  destruct (Send.pc s) eqn:Epc;
    try (rewrite resume_elsewhere; [trivial | congruence]).
  unfold Observe.resolved_as_reported, Send.resume, Send.after_connect,
    Send.catch_block.
  rewrite Epc. intros [Ho Hr].
  destruct (PromiseTimeout.raced (Send.connection s)) as [|[]|m]; simpl.
  - now rewrite Epc.
  - destruct (Send.has_payload code); simpl; rewrite ?Ho, ?reports_app, ?Hr;
      simpl; eauto.
  - rewrite Ho, !reports_app, Hr. simpl. eauto.
Qed.

Lemma step_resolved_as_reported s e :
  Observe.resolved_as_reported s ->
  Observe.resolved_as_reported (step s e).
Proof.
  intros H. destruct e as [ev| | |]; simpl.
  - destruct (Net.emit (Net.name ev) (Send.client s)) as [hs c'].
    apply resume_resolved_as_reported.
    unfold Observe.resolved_as_reported.
    now rewrite handlers_pc, handlers_outer, handlers_reports.
  - now apply resume_resolved_as_reported.
  - unfold Observe.resolved_as_reported in *.
    destruct (Send.pc s) eqn:Epc; rewrite ?Epc; trivial.
    destruct H as [Ho Hr].
    unfold Send.after_compress, Encoder.compressData.
    destruct (deflate plaintextBuffer); simpl;
      rewrite ?Ho, ?reports_app, ?Hr; simpl; eauto.
  - unfold Observe.resolved_as_reported in *.
    destruct (Send.pc s) eqn:Epc; rewrite ?Epc; trivial.
    destruct H as [Ho Hr].
    simpl. rewrite Ho, !reports_app, Hr. simpl. eauto.
Qed.

Lemma run_resolved_as_reported es : Observe.resolved_as_reported (send es).
Proof.
  induction es as [|e es IH] using rev_ind.
  - unfold Send._connectAndSendInternal. cbn [fold_left].
    unfold Send.start, Net.connect. simpl.
    destruct (throws port); apply resume_resolved_as_reported; split;
      reflexivity.
  - rewrite run_snoc. now apply step_resolved_as_reported.
Qed.

(** The session calls [resolve] at most once: never while the promise is
    pending, and once, with the report the promise holds, when it is
    fulfilled.  Whatever events come afterwards, no second report is made. *)
Theorem send_resolves_exactly_once (es : list Send.Event) :
  Observe.reports (Send.effects (send es)) =
  match Send.outer (send es) with
  | JS.Fulfilled report => [report]
  | _ => []
  end.
Proof.
  pose proof (run_resolved_as_reported es) as H.
  unfold Observe.resolved_as_reported in H.
  destruct (Send.pc (send es)); try (destruct H as [-> ->]; reflexivity).
  destruct H as (r & -> & ->). reflexivity.
Qed.

Lemma handlers_ended err hs : forall s,
  Net.ended (Send.client (fold_left (Send.run_handler port err) hs s)) =
  Net.ended (Send.client s).
Proof.
  induction hs as [|h hs IH]; intros s; simpl; trivial.
  rewrite IH. now destruct h.
Qed.

Lemma handlers_destroyed err hs : forall s,
  Net.destroyed (Send.client s) = true ->
  Net.destroyed (Send.client (fold_left (Send.run_handler port err) hs s)) =
  true.
Proof.
  induction hs as [|h hs IH]; intros s H; simpl; trivial.
  apply IH. now destruct h.
Qed.

(** A returned session only reacts to socket events, and these neither
    reopen nor un-end its socket. *)
Lemma step_returned_flags s e :
  Send.pc s = Send.returned ->
  Net.ended (Send.client (step s e)) = Net.ended (Send.client s) /\
  (Net.destroyed (Send.client s) = true ->
   Net.destroyed (Send.client (step s e)) = true).
Proof.
  intros Hpc. destruct e as [ev| | |]; simpl; rewrite ?Hpc; auto.
  - destruct (Net.emit (Net.name ev) (Send.client s)) as [hs c'] eqn:E.
    unfold Net.emit in E. injection E as _ <-.
    rewrite resume_elsewhere by (rewrite handlers_pc; simpl; congruence).
    rewrite handlers_ended. split; trivial.
    intros Hd. now apply handlers_destroyed.
  - rewrite resume_elsewhere by (simpl; congruence). auto.
Qed.

Lemma run_closed_as_reported es : Observe.closed_as_reported port (send es).
Proof.
  induction es as [|e es IH] using rev_ind.
  - unfold Observe.closed_as_reported, Send._connectAndSendInternal.
    cbn [fold_left].
    destruct (throws port) as [m|] eqn:Et.
    + destruct (start_throws throws code port m Et) as (-> & Ho & _ & Hd).
      left. eauto.
    + now rewrite (start_connecting throws code port Et).
  - rewrite run_snoc. unfold Observe.closed_as_reported in *.
    destruct (Send.pc (send es)) eqn:Epc.
    + destruct (await_connect_connecting deflate throws code port es Epc)
        as (-> & _ & _).
      destruct (Contract.connect_failure port e) as [m|] eqn:Ef.
      * destruct (connecting_step_failure deflate code port e m Ef)
          as (Ho & -> & -> & _).
        left. eauto.
      * destruct e as [[|m|]| | |]; try discriminate;
          try (now rewrite connecting_step_post).
        pose proof (connecting_step_connect deflate code port) as H.
        cbv zeta in H. destruct (Send.has_payload code).
        -- now destruct H as (-> & _).
        -- destruct H as (-> & Ho & _ & He & _). right. auto.
    + pose proof (step_waits deflate code port (send es) e) as Hk.
      rewrite Epc in Hk.
      destruct e as [ev| | |]; try (now destruct (Hk I) as (-> & _)).
      simpl. rewrite Epc. unfold Send.after_compress, Encoder.compressData.
      destruct (deflate plaintextBuffer) as [m|c]; simpl; trivial.
      rewrite (waiting_pending deflate throws code port es) by congruence.
      left. simpl. eauto.
    + pose proof (step_waits deflate code port (send es) e) as Hk.
      rewrite Epc in Hk.
      destruct e as [ev| | |]; try (now destruct (Hk I) as (-> & _)).
      assert (Ho : Send.outer (send es) = JS.Pending)
        by (apply waiting_pending; congruence).
      destruct (flush_step deflate code port (send es) compressedData Epc Ho)
        as (-> & -> & _ & -> & _).
      right. auto.
    + rewrite (step_pc_returned deflate code port _ e Epc).
      destruct (step_returned_flags (send es) e Epc) as [He Hd].
      rewrite step_outer_stable, He.
      * destruct IH as [[Hdes Hm]|Hend]; [left|right]; auto.
      * destruct IH as [[_ [m ->]]|[_ [-> | ->]]]; reflexivity.
Qed.

(** No socket is left open behind a report: when the promise is fulfilled
    with the failure report the socket has been destroyed, when it is
    fulfilled with a success report the socket has been ended; in both cases
    it stays so whatever events come afterwards. *)
Theorem send_releases_socket (es : list Send.Event) (report : string) :
  Send.outer (send es) = JS.Fulfilled report ->
  Observe.released (send es) = true /\
  ((Net.destroyed (Send.client (send es)) = true /\
    exists message, report = Send.failure_report port message) \/
   (Net.ended (Send.client (send es)) = true /\
    (report = Send.connected_report port \/
     report = Send.executed_report port))).
Proof.
  intros Ho.
  pose proof (run_closed_as_reported es) as H.
  pose proof (run_settled_when_returned deflate throws code port es) as Hs.
  unfold Observe.closed_as_reported, Contract.settled_when_returned in *.
  destruct (Send.pc (send es)); try congruence.
  unfold Observe.released.
  destruct H as [[Hd [m Hm]]|[He Hr]].
  - rewrite Hd, orb_true_r. split; trivial. left. split; trivial.
    exists m. congruence.
  - rewrite He. split; trivial. right. split; trivial.
    destruct Hr as [Hr|Hr]; [left|right]; congruence.
Qed.

Lemma decisive_post e es :
  Contract.post_connect e = true ->
  Observe.decisive (e :: es) = Observe.decisive es.
Proof. intros H. unfold Observe.decisive. simpl. now rewrite H. Qed.

Lemma decisive_here e es :
  Contract.post_connect e = false -> Observe.decisive (e :: es) = Some e.
Proof. intros H. unfold Observe.decisive. simpl. now rewrite H. Qed.

Lemma connecting_fold_sentinel es :
  Send.has_payload code = false ->
  Send.outer (fold_left step es (Contract.connecting port)) =
  match Observe.decisive es with
  | None => JS.Pending
  | Some e =>
      match Contract.connect_failure port e with
      | Some message => JS.Fulfilled (Send.failure_report port message)
      | None => JS.Fulfilled (Send.connected_report port)
      end
  end.
Proof.
  intros Hp. induction es as [|e es IH]; trivial.
  cbn [fold_left]. destruct (Contract.post_connect e) eqn:Ee.
  - rewrite connecting_step_post, decisive_post; trivial.
  - rewrite decisive_here by trivial.
    destruct (Contract.connect_failure port e) as [m|] eqn:Ef.
    + destruct (connecting_step_failure deflate code port e m Ef) as (Ho & _).
      rewrite fold_outer_stable; rewrite Ho; reflexivity.
    + destruct e as [[|m|]| | |]; try discriminate.
      pose proof (connecting_step_connect deflate code port) as H.
      cbv zeta in H. rewrite Hp in H. destruct H as (_ & Ho & _).
      rewrite fold_outer_stable; rewrite Ho; reflexivity.
Qed.

Lemma run_sentinel_verdict es :
  Send.has_payload code = false ->
  Send.outer (send es) = Observe.verdict throws port es.
Proof.
  intros Hcode.
  unfold Observe.verdict.
  destruct (throws port) as [m|] eqn:Et.
  - destruct (start_throws throws code port m Et) as (_ & Ho & _).
    unfold Send._connectAndSendInternal.
    rewrite fold_outer_stable; rewrite Ho; reflexivity.
  - unfold Send._connectAndSendInternal.
    rewrite (start_connecting throws code port Et).
    now apply connecting_fold_sentinel.
Qed.

(** A send without payload is decided by the first event its Connecting state
    reacts to: it reports success when that event is the connection and the
    failure of that event otherwise, it is pending before, and events that
    come later change nothing.  An exception of [connect] decides it at
    once. *)
Theorem send_sentinel_decided_by_first_event (es : list Send.Event) :
  code = JS.Str "NULL" \/ JS.truthy code = false ->
  Send.outer (send es) = Observe.verdict throws port es.
Proof.
  intros Hcode. apply has_payload_false in Hcode.
  now apply run_sentinel_verdict.
Qed.












Lemma handlers_timer err hs : forall s,
  PromiseTimeout.id
    (Send.connection (fold_left (Send.run_handler port err) hs s)) =
  PromiseTimeout.id (Send.connection s).
Proof.
  induction hs as [|h hs IH]; intros s; simpl; trivial.
  rewrite IH. now destruct h.
Qed.

Lemma resume_connection s :
  Send.connection (Send.resume code port s) = Send.connection s.
Proof.
  unfold Send.resume, Send.after_connect, Send.catch_block.
  destruct (Send.pc s); trivial.
  destruct (PromiseTimeout.raced (Send.connection s)) as [|[]|m]; trivial.
  now destruct (Send.has_payload code).
Qed.

Lemma step_timer s e :
  PromiseTimeout.id (Send.connection (step s e)) =
  match e with
  | Send.TimerFires =>
      match PromiseTimeout.id (Send.connection s) with
      | JS.Armed _ => JS.Expired
      | t => t
      end
  | _ => PromiseTimeout.id (Send.connection s)
  end.
Proof.
  destruct e as [ev| | |]; simpl.
  - destruct (Net.emit (Net.name ev) (Send.client s)) as [hs c'].
    now rewrite resume_connection, handlers_timer.
  - rewrite resume_connection. simpl. unfold PromiseTimeout.fires.
    now destruct (PromiseTimeout.id (Send.connection s)) eqn:E; rewrite ?E.
  - destruct (Send.pc s); trivial.
    unfold Send.after_compress, Encoder.compressData.
    now destruct (deflate plaintextBuffer).
  - now destruct (Send.pc s).
Qed.

(** The session never clears the timer of its Timeout Race: whatever the
    session does - connect, fail, resolve its report - the 3000 ms timer
    stays armed until it expires by itself. *)
Theorem send_timer_outlives_the_session (es : list Send.Event) :
  PromiseTimeout.id (Send.connection (send es)) =
  if existsb Contract.is_timer es then JS.Expired else JS.Armed 3000.
Proof.
  induction es as [|e es IH] using rev_ind.
  - unfold Send._connectAndSendInternal, Send.start, Net.connect.
    cbn [fold_left]. destruct (throws port); now rewrite resume_connection.
  - rewrite run_snoc, step_timer, IH, existsb_app. simpl.
    destruct e, (existsb Contract.is_timer es); reflexivity.
Qed.

End SendMore.
(** ** The send without payload *)

Section SendSentinel.
Variable deflate : list byte -> string + list byte.
Variable throws : string -> option string.
Variable code : JS.Value.
Variable port : string.

Local Abbreviation send := (Send._connectAndSendInternal deflate throws code port).
Local Abbreviation step := (Send.step deflate code port).

(** No step changes the port the socket was asked to connect to. *)
Lemma handlers_connecting err hs : forall s,
  Net.connecting (Send.client (fold_left (Send.run_handler port err) hs s)) =
  Net.connecting (Send.client s).
Proof.
  induction hs as [|h hs IH]; intros s; simpl; trivial.
  rewrite IH. now destruct h.
Qed.

Lemma resume_connecting s :
  Net.connecting (Send.client (Send.resume code port s)) =
  Net.connecting (Send.client s).
Proof.
  unfold Send.resume, Send.after_connect, Send.catch_block.
  destruct (Send.pc s); trivial.
  destruct (PromiseTimeout.raced (Send.connection s)); trivial.
  destruct (Send.has_payload code); trivial.
Qed.

Lemma step_connecting s e :
  Net.connecting (Send.client (step s e)) = Net.connecting (Send.client s).
Proof.
  destruct e as [ev| | |]; simpl.
  - rewrite resume_connecting, handlers_connecting. reflexivity.
  - now rewrite resume_connecting.
  - destruct (Send.pc s); trivial.
    unfold Send.after_compress, Encoder.compressData.
    destruct (deflate plaintextBuffer); reflexivity.
  - destruct (Send.pc s); trivial.
Qed.

Lemma run_connecting es :
  throws port = None -> Net.connecting (Send.client (send es)) = Some port.
Proof.
  intros Ht. induction es as [|e es IH] using rev_ind.
  - unfold Send._connectAndSendInternal. cbn [fold_left].
    now rewrite (start_connecting throws code port Ht).
  - now rewrite run_snoc, step_connecting.
Qed.

(** A returned session only adds to what it has done. *)
Lemma handlers_effects err hs : forall s,
  exists more,
    Send.effects (fold_left (Send.run_handler port err) hs s) =
    (Send.effects s ++ more)%list.
Proof.
  induction hs as [|h hs IH]; intros s; simpl.
  - exists []. now rewrite app_nil_r.
  - destruct (IH (Send.run_handler port err s h)) as [more ->].
    destruct h; simpl; rewrite <- app_assoc; eauto.
Qed.

Lemma step_returned_effects s e :
  Send.pc s = Send.returned ->
  exists more, Send.effects (step s e) = (Send.effects s ++ more)%list.
Proof.
  intros Hpc. destruct e as [ev| | |]; simpl; rewrite ?Hpc;
    try (exists []; now rewrite app_nil_r).
  - rewrite resume_elsewhere by (rewrite handlers_pc; simpl; congruence).
    match goal with |- context [fold_left _ ?hs ?s0] =>
      destruct (handlers_effects (Net.payload ev) hs s0) as [more H] end.
    exists more. exact H.
  - rewrite resume_elsewhere by (simpl; congruence).
    exists []. now rewrite app_nil_r.
Qed.

Lemma fold_returned es : forall s,
  Send.pc s = Send.returned ->
  JS.settled (Send.outer s) = true ->
  let s' := fold_left step es s in
  Send.pc s' = Send.returned /\
  Send.outer s' = Send.outer s /\
  Net.ended (Send.client s') = Net.ended (Send.client s) /\
  exists more, Send.effects s' = (Send.effects s ++ more)%list.
Proof.
  induction es as [|e es IH]; intros s Hpc Ho; cbn [fold_left].
  - split; [|split; [|split]]; trivial. exists []. now rewrite app_nil_r.
  - pose proof (step_pc_returned deflate code port s e Hpc) as Hpc'.
    assert (Ho' : Send.outer (step s e) = Send.outer s)
      by (apply step_outer_stable; exact Ho).
    destruct (step_returned_flags deflate code port s e Hpc) as (He & _).
    destruct (step_returned_effects s e Hpc) as [m1 Hm1].
    destruct (IH (step s e) Hpc') as (H1 & H2 & H3 & m2 & H4).
    { now rewrite Ho'. }
    split; [|split; [|split]]; try congruence.
    exists (m1 ++ m2)%list. now rewrite H4, Hm1, app_assoc.
Qed.

(** From the Connecting state, without payload: nothing happens before the
    first event the state reacts to; when that event is the connection, the
    session logs it, ends the socket and resolves with the report that no
    script was sent, and that is the last it resolves. *)
Lemma connecting_fold_waits es :
  Observe.decisive es = None ->
  fold_left step es (Contract.connecting port) = Contract.connecting port.
Proof.
  induction es as [|e es IH]; trivial.
  cbn [fold_left]. destruct (Contract.post_connect e) eqn:Ee.
  - rewrite connecting_step_post, decisive_post; trivial.
  - rewrite decisive_here by trivial. discriminate.
Qed.

Lemma connecting_fold_connects es :
  Send.has_payload code = false ->
  Observe.decisive es = Some (Send.Sock Net.Connect) ->
  let s := fold_left step es (Contract.connecting port) in
  Send.pc s = Send.returned /\
  Send.outer s = JS.Fulfilled (Send.connected_report port) /\
  Net.ended (Send.client s) = true /\
  firstn 3 (Send.effects s) =
    [Send.console_log ("Successfully connected to Opiumware on port: " ++ port);
     Send.socket_end;
     Send.resolve_call (Send.connected_report port)].
Proof.
  intros Hp. induction es as [|e es IH]; [discriminate|].
  cbn [fold_left]. destruct (Contract.post_connect e) eqn:Ee.
  - rewrite connecting_step_post, decisive_post; trivial.
  - rewrite decisive_here by trivial. intros [= ->].
    pose proof (connecting_step_connect deflate code port) as H.
    cbv zeta in H. rewrite Hp in H.
    destruct H as (Hpc & Ho & _ & He & _ & Heff).
    destruct (fold_returned es _ Hpc) as (H1 & H2 & H3 & more & H4).
    { now rewrite Ho. }
    cbv zeta. rewrite H1, H2, H3, H4, Ho, He, Heff. repeat split.
Qed.

(** C7.  A [code] that is the string "NULL", or that is falsy (absent, or the
    empty string), never reaches the Payload Encoder and never writes to the
    socket, whatever the events.  On a port that [connect] accepts the
    session asks its socket for the connection and waits, with nothing done
    and nothing resolved; when the connection comes first it logs it, ends
    the socket and resolves with the report that no script was sent, once,
    and later events do not change that.  In every case the promise is
    pending or holds one of the two reports.  Such a code behaves in every
    respect as the string "NULL" does, so a payload that is the four bytes
    "NULL" is never sent. *)
Theorem send_sentinel_only_connects (es : list Send.Event) :
  code = JS.Str "NULL" \/ JS.truthy code = false ->
  let s := send es in
  forallb Contract.quiet (Send.effects s) = true /\
  Net.written (Send.client s) = [] /\
  (throws port = None ->
   Net.connecting (Send.client s) = Some port /\
   (Observe.decisive es = None ->
    Send.pc s = Send.await_connect /\
    Send.outer s = JS.Pending /\
    Send.effects s = [] /\
    Observe.released s = false) /\
   (Observe.decisive es = Some (Send.Sock Net.Connect) ->
    Send.pc s = Send.returned /\
    Send.outer s = JS.Fulfilled (Send.connected_report port) /\
    Net.ended (Send.client s) = true /\
    firstn 3 (Send.effects s) =
      [Send.console_log
         ("Successfully connected to Opiumware on port: " ++ port);
       Send.socket_end;
       Send.resolve_call (Send.connected_report port)] /\
    Observe.reports (Send.effects s) = [Send.connected_report port])) /\
  (Send.outer s = JS.Pending \/
   Send.outer s = JS.Fulfilled (Send.connected_report port) \/
   exists message, Send.outer s = JS.Fulfilled (Send.failure_report port message)) /\
  send es = Send._connectAndSendInternal deflate throws (JS.Str "NULL") port es.
Proof.
  intros Hcode s. apply has_payload_false in Hcode. subst s.
  pose proof (run_sentinel_invariant deflate throws code port es Hcode) as Hinv.
  split; [|split; [|split; [|split]]].
  - destruct Hinv as [->|(_ & _ & Hq & _)]; trivial.
  - destruct Hinv as [->|(_ & Hw & _)]; trivial.
  - intros Ht. split; [now apply run_connecting|]. split.
    + intros Hd. unfold Send._connectAndSendInternal.
      rewrite (start_connecting throws code port Ht).
      rewrite connecting_fold_waits by trivial. repeat split.
    + intros Hd.
      assert (Hrun : send es = fold_left step es (Contract.connecting port)).
      { unfold Send._connectAndSendInternal.
        now rewrite (start_connecting throws code port Ht). }
      destruct (connecting_fold_connects es Hcode Hd) as (H1 & H2 & H3 & H4).
      rewrite <- Hrun in H1, H2, H3, H4.
      repeat split; trivial.
      pose proof (run_resolved_as_reported deflate throws code port es) as Hr.
      unfold Observe.resolved_as_reported in Hr. rewrite H1 in Hr.
      destruct Hr as (r & Hr1 & Hr2). congruence.
  - destruct Hinv as [->|(_ & _ & _ & [Ho|Ho])]; auto.
  - now apply sentinel_runs_agree.
Qed.

End SendSentinel.


(** ** The Payload Encoder *)

(** C4.  The Payload Encoder on the codec of the specification.  For every
    payload [compressData] returns the bytes of the codec, and neither logs
    nor throws; compressing the same payload again gives the same bytes; and
    inflating these bytes gives exactly the payload back.  [compressData]
    itself adds nothing to the bytes: with any codec whose inflate undoes its
    deflate, inflating what [compressData] returns gives the payload. *)
Theorem compressData_deterministic_round_trip (P : list byte) :
  (exists compressed,
     Encoder.compressData Zlib.deflate P = ([], inr compressed) /\
     (forall again,
        snd (Encoder.compressData Zlib.deflate P) = inr again ->
        again = compressed) /\
     Zlib.inflate compressed = inr P)
  /\ (forall deflate inflate : list byte -> string + list byte,
        (forall data compressed,
           deflate data = inr compressed -> inflate compressed = inr data) ->
        forall compressed,
          snd (Encoder.compressData deflate P) = inr compressed ->
          inflate compressed = inr P).
Proof.
  split.
  - unfold Encoder.compressData.
    destruct (Zlib.deflate P) as [message|compressed] eqn:E;
      [discriminate E|].
    exists compressed. split; [reflexivity|]. split.
    + now intros again [= <-].
    + now apply zlib_inflate_deflate.
  - intros deflate inflate Hcodec compressed. unfold Encoder.compressData.
    destruct (deflate P) as [message|c] eqn:E; simpl; [discriminate|].
    intros [= <-]. now apply Hcodec.
Qed.

(** The bytes on the wire.  Whatever the events, a send hands to its socket
    nothing, or one chunk: what the codec made of the UTF-8 bytes of [code].
    So two sends of one payload write the same bytes, whatever their ports
    and events, and a codec that inverts itself gives the payload back. *)
Theorem send_writes_the_compressed_payload
    (deflate inflate : list byte -> string + list byte)
    (throws : string -> option string) (code : JS.Value)
    (port1 port2 : string) (es1 es2 : list Send.Event) :
  let written port es :=
    Net.written
      (Send.client (Send._connectAndSendInternal deflate throws code port es)) in
  (written port1 es1 = [] \/
   exists compressedData,
     written port1 es1 = [compressedData] /\
     deflate (JS.Buffer_from code) = inr compressedData /\
     ((forall data compressed,
         deflate data = inr compressed -> inflate compressed = inr data) ->
      inflate compressedData = inr (JS.Buffer_from code)))
  /\ (written port1 es1 <> [] -> written port2 es2 <> [] ->
      written port1 es1 = written port2 es2).
Proof.
  intros written. subst written. cbv beta. split.
  - destruct (run_written deflate throws code port1 es1)
      as [H|(c & H & Hd & _)]; [now left|].
    right. exists c. repeat split; trivial. intros Hcodec. now apply Hcodec.
  - intros H1 H2.
    destruct (run_written deflate throws code port1 es1)
      as [H|(c1 & -> & Hd1 & _)]; [congruence|].
    destruct (run_written deflate throws code port2 es2)
      as [H|(c2 & -> & Hd2 & _)]; [congruence|].
    congruence.
Qed.

(** ** The Port Prober *)

Section ProbeFacts.
Variable throws : string -> option string.
Variable port : string.

Local Abbreviation probe := (Probe.check_port_status throws port).

Lemma probe_snoc es ev : probe (es ++ [ev]) = Probe.step (probe es) ev.
Proof. unfold Probe.check_port_status. now rewrite fold_left_app. Qed.

(** The handlers of the prober never write and never end the socket; a
    settled result stays. *)
Lemma probe_handlers hs : forall s,
  let s' := fold_left Probe.run_handler hs s in
  Net.written (Probe.client s') = Net.written (Probe.client s) /\
  Net.ended (Probe.client s') = Net.ended (Probe.client s) /\
  Net.timeout (Probe.client s') = Net.timeout (Probe.client s) /\
  Net.connecting (Probe.client s') = Net.connecting (Probe.client s) /\
  (Net.destroyed (Probe.client s) = true ->
   Net.destroyed (Probe.client s') = true) /\
  (JS.settled (Probe.result s) = true -> Probe.result s' = Probe.result s).
Proof.
  induction hs as [|h hs IH]; intros s; simpl; [tauto|].
  destruct (IH (Probe.run_handler s h)) as (H1 & H2 & H3 & H4 & H5 & H6).
  rewrite H1, H2, H3, H4.
  repeat split; try (now destruct h).
  - intros _. apply H5. now destruct h.
  - intros Hs. rewrite H6.
    + destruct h; simpl; now apply settle_settled.
    + destruct h; simpl; rewrite settle_settled; trivial.
Qed.

Lemma probe_step_keeps s ev :
  let s' := Probe.step s ev in
  Net.written (Probe.client s') = Net.written (Probe.client s) /\
  Net.ended (Probe.client s') = Net.ended (Probe.client s) /\
  Net.timeout (Probe.client s') = Net.timeout (Probe.client s) /\
  Net.connecting (Probe.client s') = Net.connecting (Probe.client s) /\
  (Net.destroyed (Probe.client s) = true ->
   Net.destroyed (Probe.client s') = true) /\
  (JS.settled (Probe.result s) = true -> Probe.result s' = Probe.result s).
Proof.
  unfold Probe.step. simpl.
  match goal with |- context [fold_left Probe.run_handler ?hs ?s0] =>
    exact (probe_handlers hs s0) end.
Qed.

(** The first socket event decides. *)
Lemma probe_first_event ev :
  throws port = None ->
  let s' := Probe.step (Probe.start throws port) ev in
  Probe.result s' = Contract.liveness [ev] /\
  Net.destroyed (Probe.client s') = true /\
  Probe.effects s' =
    [Probe.socket_destroy;
     Probe.resolve_call (match ev with Net.Connect => true | _ => false end)].
Proof.
  intros Ht. unfold Probe.start, Net.connect. rewrite Ht.
  destruct ev; repeat split.
Qed.

Lemma probe_start_accepted :
  throws port = None ->
  let s := Probe.start throws port in
  Probe.result s = JS.Pending /\
  Net.written (Probe.client s) = [] /\
  Net.ended (Probe.client s) = false /\
  Net.timeout (Probe.client s) = Some Probe.timeoutMs /\
  Net.connecting (Probe.client s) = Some port /\
  map (fun l => (Net.event l, Net.once_only l, Net.handler l))
      (Net.listeners (Probe.client s)) =
    [(Net.connect_ev, true, Probe.on_connect);
     (Net.error_ev, true, Probe.on_error);
     (Net.timeout_ev, true, Probe.on_timeout)].
Proof.
  intros Ht. unfold Probe.start, Net.connect. rewrite Ht. repeat split.
Qed.

Lemma probe_run es :
  throws port = None ->
  let s := probe es in
  Probe.result s = Contract.liveness es /\
  Net.written (Probe.client s) = [] /\
  Net.ended (Probe.client s) = false /\
  Net.timeout (Probe.client s) = Some Probe.timeoutMs /\
  Net.connecting (Probe.client s) = Some port /\
  (es <> [] -> Net.destroyed (Probe.client s) = true).
Proof.
  intros Ht. induction es as [|ev es IH] using rev_ind.
  - destruct (probe_start_accepted Ht) as (H1 & H2 & H3 & H4 & H5 & _).
    repeat split; trivial. congruence.
  - cbv zeta in *. rewrite probe_snoc.
    destruct IH as (H1 & H2 & H3 & H4 & H5 & H6).
    destruct (probe_step_keeps (probe es) ev) as (K1 & K2 & K3 & K4 & K5 & K6).
    rewrite K1, K2, K3, K4, H2, H3, H4, H5.
    destruct es as [|e0 es].
    + destruct (probe_first_event ev Ht) as (F1 & F2 & _).
      repeat split; trivial.
    + repeat split; trivial.
      * rewrite K6; rewrite H1; now destruct e0.
      * intros _. apply K5, H6. discriminate.
Qed.

(** An exception of [client.connect] rejects the promise, for good. *)
Lemma probe_refused message es :
  throws port = Some message ->
  Probe.result (probe es) = JS.Rejected message.
Proof.
  intros Ht. induction es as [|ev es IH] using rev_ind.
  - unfold Probe.check_port_status, Probe.start, Net.connect. simpl.
    now rewrite Ht.
  - rewrite probe_snoc.
    destruct (probe_step_keeps (probe es) ev) as (_ & _ & _ & _ & _ & K6).
    rewrite K6; rewrite IH; reflexivity.
Qed.

(** After that exception the socket was asked for no connection and has no
    timeout; the events, if any came, write nothing. *)
Lemma probe_refused_socket message es :
  throws port = Some message ->
  Net.connecting (Probe.client (probe es)) = None /\
  Net.timeout (Probe.client (probe es)) = None /\
  Net.written (Probe.client (probe es)) = [].
Proof.
  intros Ht. induction es as [|ev es IH] using rev_ind.
  - unfold Probe.check_port_status, Probe.start, Net.connect. simpl.
    rewrite Ht. repeat split.
  - rewrite probe_snoc.
    destruct (probe_step_keeps (probe es) ev) as (K1 & _ & K3 & K4 & _).
    destruct IH as (H1 & H2 & H3).
    rewrite K1, K3, K4. repeat split; trivial.
Qed.

End ProbeFacts.

(** C8.  ['check-port-status'] on a port that [connect] accepts resolves
    with what the first socket event says: [true] when the connection
    succeeds before the 1000 ms timeout of the socket, [false] when an error
    or the timeout comes first, whatever the error is; the socket is
    destroyed at that event and nothing is written to it.  On a port that
    [connect] refuses with an exception the handler resolves with no boolean:
    its promise is rejected, and the rejection carries the message of the
    exception to the caller.  No connection was asked for and no timeout
    set. *)
Theorem check_port_status_first_event_decides
    (throws : string -> option string) (port : string) (es : list Net.Event) :
  let s := Probe.check_port_status throws port es in
  (throws port = None ->
   Probe.result s = Contract.liveness es /\
   (forall message rest,
      es = Net.Error message :: rest -> Probe.result s = JS.Fulfilled false) /\
   Net.connecting (Probe.client s) = Some port /\
   Net.timeout (Probe.client s) = Some 1000%Z /\
   Net.written (Probe.client s) = [] /\
   Net.ended (Probe.client s) = false /\
   (es <> [] -> Net.destroyed (Probe.client s) = true))
  /\ (forall message,
        throws port = Some message ->
        Probe.result s = JS.Rejected message /\
        (forall live, Probe.result s <> JS.Fulfilled live) /\
        Net.connecting (Probe.client s) = None /\
        Net.timeout (Probe.client s) = None /\
        Net.written (Probe.client s) = []).
Proof.
  intros s. split.
  - intros Ht.
    destruct (probe_run throws port es Ht) as (H1 & H2 & H3 & H4 & H5 & H6).
    subst s. repeat split; trivial.
    intros m rest ->. now rewrite H1.
  - intros message Ht. subst s.
    destruct (probe_refused_socket throws port message es Ht)
      as (H1 & H2 & H3).
    rewrite (probe_refused throws port message es Ht).
    repeat split; trivial. discriminate.
Qed.

(** C10.  For a port that [connect] accepts, the promise of
    ['check-port-status'] settles at the first socket event, with a boolean,
    and later events do not change it.  For a port that [connect] refuses
    with an exception, the promise is rejected with that exception: the
    executor has no [try] around [client.connect]. *)
Theorem check_port_status_settles_once_or_rejects
    (throws : string -> option string) (port : string) (es : list Net.Event) :
  (throws port = None ->
   (es <> [] -> exists live,
      Probe.result (Probe.check_port_status throws port es) =
        JS.Fulfilled live) /\
   (forall es',
      es <> [] ->
      Probe.result (Probe.check_port_status throws port (es ++ es')) =
      Probe.result (Probe.check_port_status throws port es)))
  /\ (forall message,
        throws port = Some message ->
        Probe.result (Probe.check_port_status throws port es) =
          JS.Rejected message).
Proof.
  split.
  - intros Ht. split.
    + intros Hne. destruct (probe_run throws port es Ht) as (-> & _).
      destruct es as [|[|m|] es]; [congruence| | |]; simpl; eauto.
    + intros es' Hne.
      destruct (probe_run throws port es Ht) as (-> & _).
      destruct (probe_run throws port (es ++ es') Ht) as (-> & _).
      destruct es as [|e es]; [congruence|]. reflexivity.
  - intros m Ht. now apply probe_refused.
Qed.

(** ** More on the Port Prober *)

Section ProbeMore.
Variable throws : string -> option string.
Variable port : string.

Local Abbreviation probe := (Probe.check_port_status throws port).

Lemma probe_handlers_listeners hs : forall s,
  Net.listeners (Probe.client (fold_left Probe.run_handler hs s)) =
  Net.listeners (Probe.client s).
Proof.
  induction hs as [|h hs IH]; intros s; simpl; trivial.
  rewrite IH. now destruct h.
Qed.

Lemma eventname_eqb_eq a b : Net.EventName_eqb a b = true <-> a = b.
Proof. destruct a, b; simpl; split; congruence. Qed.

(** The listeners left on the socket are [once] listeners for kinds of event
    that have not occurred yet. *)
Lemma probe_listeners es : forall l,
  In l (Net.listeners (Probe.client (probe es))) ->
  Net.once_only l = true /\ ~ In (Net.event l) (Observe.kinds es).
Proof.
  induction es as [|ev es IH] using rev_ind; intros l Hin.
  - unfold Probe.check_port_status, Probe.start, Net.connect in Hin.
    cbn [fold_left] in Hin.
    destruct (throws port); simpl in Hin;
      repeat (destruct Hin as [<-|Hin]; [split; [reflexivity | intros []]|]);
      destruct Hin.
  - rewrite probe_snoc in Hin. unfold Probe.step in Hin. simpl in Hin.
    rewrite probe_handlers_listeners in Hin. simpl in Hin.
    apply filter_In in Hin as [Hin Hf].
    destruct (IH l Hin) as [Ho Hk]. split; trivial.
    unfold Observe.kinds. rewrite map_app, in_app_iff. simpl.
    intros [H|[H|[]]]; [now apply Hk|].
    rewrite Ho, andb_true_r in Hf. unfold Net.listens in Hf.
    rewrite <- H in Hf.
    destruct (Net.name ev); discriminate.
Qed.

Lemma filter_none A (f : A -> bool) l :
  (forall x, In x l -> f x = false) -> filter f l = [].
Proof.
  induction l as [|a l IH]; intros H; simpl; trivial.
  rewrite (H a (or_introl eq_refl)). apply IH. intros x Hx. apply H. now right.
Qed.

Lemma filter_all A (f : A -> bool) l :
  (forall x, In x l -> f x = true) -> filter f l = l.
Proof.
  induction l as [|a l IH]; intros H; simpl; trivial.
  rewrite (H a (or_introl eq_refl)). f_equal. apply IH.
  intros x Hx. apply H. now right.
Qed.

(** The three handlers are registered with [once]: an event of a kind that
    has occurred before finds no listener, and leaves the prober - its
    socket, its promise, what it has done - exactly as it was.  So each
    handler runs at most once, whatever the socket emits. *)
Theorem check_port_status_ignores_repeated_kind
    (es : list Net.Event) (ev : Net.Event) :
  In (Net.name ev) (Observe.kinds es) ->
  Probe.check_port_status throws port (es ++ [ev]) =
  Probe.check_port_status throws port es.
Proof.
  intros Hseen. rewrite probe_snoc. unfold Probe.step, Net.emit.
  assert (Hno : forall l, In l (Net.listeners (Probe.client (probe es))) ->
                  Net.listens Probe.Handler (Net.name ev) l = false).
  { intros l Hin. destruct (probe_listeners es l Hin) as [_ Hk].
    unfold Net.listens.
    destruct (Net.EventName_eqb (Net.event l) (Net.name ev)) eqn:E; trivial.
    apply eventname_eqb_eq in E. congruence. }
  rewrite (filter_none _ _ _ Hno), filter_all.
  - simpl. destruct (probe es) as [[] ? ?]. reflexivity.
  - intros l Hin. now rewrite (Hno l Hin).
Qed.

End ProbeMore.

(** ** The Autodiscovery Scanner *)

Section ScannerFacts.
Variable deflate : list byte -> string + list byte.
Variable throws : string -> option string.
Variable net : string -> list Send.Event.

Local Abbreviation attempt port :=
  (Send.outer
     (Send._connectAndSendInternal deflate throws (JS.Str "NULL") port
        (net port))).
Local Abbreviation probes ports := (map (pair (JS.Str "NULL")) ports).

(** What the session of a probe can answer. *)
Lemma attempt_cases port :
  attempt port = JS.Pending \/
  attempt port = JS.Fulfilled (Send.connected_report port) \/
  exists message, attempt port = JS.Fulfilled (Send.failure_report port message).
Proof.
  destruct (run_sentinel_invariant deflate throws (JS.Str "NULL") port
              (net port) eq_refl) as [->|(_ & _ & _ & [H|H])]; auto.
Qed.

(** Every port fails: the loop calls them all and gives the sentinel. *)
Lemma loop_all_failed ports : forall calls console,
  (forall port, In port ports ->
     exists message,
       attempt port = JS.Fulfilled (Send.failure_report port message)) ->
  Scanner.loop deflate throws net ports calls console =
  {| Scanner.answer := JS.Fulfilled Scanner.failure_sentinel;
     Scanner.calls := (calls ++ probes ports)%list;
     Scanner.console := console |}.
Proof.
  induction ports as [|port ports IH]; intros calls console Hall; simpl.
  - now rewrite app_nil_r.
  - destruct (Hall port (or_introl eq_refl)) as [m ->].
    rewrite failure_report_startsWith, IH, <- app_assoc; trivial.
    intros p Hp. apply Hall. now right.
Qed.

(** The loop stops at the first port that succeeds. *)
Lemma loop_first_success before : forall port after calls console,
  (forall p, In p before ->
     exists message, attempt p = JS.Fulfilled (Send.failure_report p message)) ->
  attempt port = JS.Fulfilled (Send.connected_report port) ->
  Scanner.loop deflate throws net (before ++ port :: after) calls console =
  {| Scanner.answer := JS.Fulfilled port;
     Scanner.calls := (calls ++ probes (before ++ [port]))%list;
     Scanner.console := console |}.
Proof.
  induction before as [|q before IH]; intros port after calls console Hall Hok;
    simpl.
  - now rewrite Hok, connected_report_startsWith.
  - destruct (Hall q (or_introl eq_refl)) as [m ->].
    rewrite failure_report_startsWith, IH, <- app_assoc; trivial.
    intros p Hp. apply Hall. now right.
Qed.

(** The loop waits at the first port whose session does not settle. *)
Lemma loop_first_pending before : forall port after calls console,
  (forall p, In p before ->
     exists message, attempt p = JS.Fulfilled (Send.failure_report p message)) ->
  attempt port = JS.Pending ->
  Scanner.loop deflate throws net (before ++ port :: after) calls console =
  {| Scanner.answer := JS.Pending;
     Scanner.calls := (calls ++ probes (before ++ [port]))%list;
     Scanner.console := console |}.
Proof.
  induction before as [|q before IH]; intros port after calls console Hall Hok;
    simpl.
  - now rewrite Hok.
  - destruct (Hall q (or_introl eq_refl)) as [m ->].
    rewrite failure_report_startsWith, IH, <- app_assoc; trivial.
    intros p Hp. apply Hall. now right.
Qed.

(** A list of ports fails throughout, or has a first port that does not. *)
Lemma first_not_failed ports :
  (forall port, In port ports ->
     exists message,
       attempt port = JS.Fulfilled (Send.failure_report port message)) \/
  exists before port after,
    ports = (before ++ port :: after)%list /\
    (forall p, In p before ->
       exists message, attempt p = JS.Fulfilled (Send.failure_report p message)) /\
    (attempt port = JS.Pending \/
     attempt port = JS.Fulfilled (Send.connected_report port)).
Proof.
  induction ports as [|q ports IH].
  - left. intros p [].
  - destruct (attempt_cases q) as [Hq|[Hq|Hq]].
    + right. exists [], q, ports. repeat split; auto. intros p [].
    + right. exists [], q, ports. repeat split; auto. intros p [].
    + destruct IH as [Hall|(before & p & after & -> & Hb & Hp)].
      * left. intros p [<-|Hp]; auto.
      * right. exists (q :: before), p, after. repeat split; auto.
        intros p' [<-|Hp']; auto.
Qed.

End ScannerFacts.

(** C1.  ['auto-attach'] goes through the ports 8392 to 8397 in this order,
    one session after the other, each called with the code "NULL".  It
    answers the first port whose session resolves with the success report and
    calls no port after it; it waits on a session that has not resolved and
    calls no port meanwhile; when every session resolves with a failure report
    it has called all six and answers "Failed to connect on all ports", which
    is none of the six ports and differs from every decimal port string. *)
Theorem auto_attach_first_live_port
    (deflate : list byte -> string + list byte)
    (throws : string -> option string) (net : string -> list Send.Event) :
  let attempt port :=
    Send.outer
      (Send._connectAndSendInternal deflate throws (JS.Str "NULL") port
         (net port)) in
  let failed port :=
    exists message,
      attempt port = JS.Fulfilled (Send.failure_report port message) in
  let scan := Scanner.auto_attach deflate throws net in
  Scanner.PORTS = ["8392"; "8393"; "8394"; "8395"; "8396"; "8397"]
  /\ (exists n,
        Scanner.calls scan =
          map (pair (JS.Str "NULL")) (firstn n Scanner.PORTS))
  /\ (forall before port after,
        Scanner.PORTS = (before ++ port :: after)%list ->
        (forall p, In p before -> failed p) ->
        attempt port = JS.Fulfilled (Send.connected_report port) ->
        Scanner.answer scan = JS.Fulfilled port /\
        Scanner.calls scan = map (pair (JS.Str "NULL")) (before ++ [port]))
  /\ (forall before port after,
        Scanner.PORTS = (before ++ port :: after)%list ->
        (forall p, In p before -> failed p) ->
        attempt port = JS.Pending ->
        Scanner.answer scan = JS.Pending /\
        Scanner.calls scan = map (pair (JS.Str "NULL")) (before ++ [port]))
  /\ ((forall p, In p Scanner.PORTS -> failed p) ->
      Scanner.answer scan = JS.Fulfilled Scanner.failure_sentinel /\
      Scanner.calls scan = map (pair (JS.Str "NULL")) Scanner.PORTS)
  /\ (forall answer,
        Scanner.answer scan = JS.Fulfilled answer ->
        (answer = Scanner.failure_sentinel /\
         forall p, In p Scanner.PORTS -> failed p) \/
        (exists before after,
           Scanner.PORTS = (before ++ answer :: after)%list /\
           (forall p, In p before -> failed p) /\
           attempt answer = JS.Fulfilled (Send.connected_report answer)))
  /\ (forall message, Scanner.answer scan <> JS.Rejected message)
  /\ Scanner.failure_sentinel = "Failed to connect on all ports"
  /\ ~ In Scanner.failure_sentinel Scanner.PORTS
  /\ (forall p, In p Scanner.PORTS -> Node.port_number p <> None)
  /\ (forall s, Node.port_number s <> None -> s <> Scanner.failure_sentinel).
Proof.
  intros attempt failed scan. subst attempt failed scan.
  unfold Scanner.auto_attach.
  split; [reflexivity|].
  split; [|split; [|split; [|split; [|split; [|split]]]]].
  - destruct (first_not_failed deflate throws net Scanner.PORTS)
      as [Hall|(before & port & after & Hports & Hb & [Hp|Hp])].
    + exists (length Scanner.PORTS).
      now rewrite (loop_all_failed deflate throws net _ [] [] Hall).
    + exists (length (before ++ [port])). rewrite Hports.
      rewrite (loop_first_pending deflate throws net before port after [] [] Hb Hp).
      simpl. f_equal.
      change (before ++ port :: after)%list with (before ++ [port] ++ after)%list.
      now rewrite app_assoc, firstn_prefix.
    + exists (length (before ++ [port])). rewrite Hports.
      rewrite (loop_first_success deflate throws net before port after [] [] Hb Hp).
      simpl. f_equal.
      change (before ++ port :: after)%list with (before ++ [port] ++ after)%list.
      now rewrite app_assoc, firstn_prefix.
  - intros before port after -> Hb Hp.
    now rewrite (loop_first_success deflate throws net before port after [] [] Hb Hp).
  - intros before port after -> Hb Hp.
    now rewrite (loop_first_pending deflate throws net before port after [] [] Hb Hp).
  - intros Hall.
    now rewrite (loop_all_failed deflate throws net _ [] [] Hall).
  - intros answer.
    destruct (first_not_failed deflate throws net Scanner.PORTS)
      as [Hall|(before & port & after & Hports & Hb & [Hp|Hp])].
    + rewrite (loop_all_failed deflate throws net _ [] [] Hall). simpl.
      intros [= <-]. now left.
    + rewrite Hports.
      rewrite (loop_first_pending deflate throws net before port after [] [] Hb Hp).
      discriminate.
    + rewrite Hports.
      rewrite (loop_first_success deflate throws net before port after [] [] Hb Hp).
      simpl. intros [= <-]. right. now exists before, after.
  - intros m.
    destruct (first_not_failed deflate throws net Scanner.PORTS)
      as [Hall|(before & port & after & Hports & Hb & [Hp|Hp])].
    + now rewrite (loop_all_failed deflate throws net _ [] [] Hall).
    + rewrite Hports.
      now rewrite (loop_first_pending deflate throws net before port after [] [] Hb Hp).
    + rewrite Hports.
      now rewrite (loop_first_success deflate throws net before port after [] [] Hb Hp).
  - split; [reflexivity|]. split; [|split].
    + intros H. simpl in H.
      repeat (destruct H as [H|H]; [discriminate H|]). exact H.
    + intros p H. simpl in H.
      repeat (destruct H as [<-|H]; [discriminate|]). destruct H.
    + intros s Hs ->. now apply Hs.
Qed.

(** ** More on the Autodiscovery Scanner *)

Lemma decisive_not_post es e :
  Observe.decisive es = Some e -> Contract.post_connect e = false.
Proof.
  unfold Observe.decisive. intros H. apply find_some in H as [_ H].
  now apply negb_true_iff in H.
Qed.

Lemma loop_discover deflate throws net ports : forall calls console,
  Scanner.loop deflate throws net ports calls console =
  {| Scanner.answer := Observe.discover throws net ports;
     Scanner.calls :=
       (calls ++ map (pair (JS.Str "NULL")) (Observe.probed throws net ports))%list;
     Scanner.console := console |}.
Proof.
  induction ports as [|port ports IH]; intros calls console; simpl.
  - now rewrite app_nil_r.
  - rewrite (run_sentinel_verdict deflate throws (JS.Str "NULL") port
               (net port) eq_refl).
    unfold Observe.verdict.
    destruct (throws port) as [m|].
    + rewrite failure_report_startsWith, IH, <- app_assoc. reflexivity.
    + destruct (Observe.decisive (net port)) as [e|] eqn:Ed; [|reflexivity].
      apply decisive_not_post in Ed.
      destruct e as [[|m|]| | |]; try discriminate; simpl;
        rewrite ?connected_report_startsWith, ?failure_report_startsWith,
          ?IH, <- ?app_assoc; reflexivity.
Qed.

(** ['auto-attach'] read off the sockets.  A port is answered exactly when
    its socket connects before it errors or times out and every port before
    it has failed - by an exception of [connect], an error, or a timeout; the
    scan waits at the first port on which nothing decisive has happened yet,
    and answers the sentinel when all ports have failed.  The sessions it
    opens are those up to the port that stops it. *)
Theorem auto_attach_reads_the_sockets
    (deflate : list byte -> string + list byte)
    (throws : string -> option string) (net : string -> list Send.Event) :
  let scan := Scanner.auto_attach deflate throws net in
  Scanner.answer scan = Observe.discover throws net Scanner.PORTS /\
  Scanner.calls scan =
    map (pair (JS.Str "NULL")) (Observe.probed throws net Scanner.PORTS) /\
  Scanner.console scan = [] /\
  1 <= length (Scanner.calls scan) <= 6.
Proof.
  intros scan. subst scan. unfold Scanner.auto_attach.
  rewrite loop_discover. cbn [Scanner.answer Scanner.calls Scanner.console app].
  repeat split; rewrite length_map.
  - unfold Scanner.PORTS. cbn [Observe.probed].
    destruct (throws "8392"), (Observe.decisive (net "8392")) as [[[| |]| | |]|];
      simpl; lia.
  - assert (H : forall ports,
              length (Observe.probed throws net ports) <= length ports).
    { induction ports as [|p ports IH]; simpl; trivial.
      destruct (throws p), (Observe.decisive (net p)) as [[[| |]| | |]|];
        simpl; lia. }
    apply (H Scanner.PORTS).
Qed.

(** ** The shell *)

Lemma method_single call effect a w :
  Shell.windows a = [w] ->
  Shell.mainWindow a = Some (Shell.id w) ->
  Shell.method call effect a =
  Shell.record (call (Shell.id w)) (Shell.set_windows [effect w] a).
Proof.
  intros Hw Hm. unfold Shell.method, Shell.is_open, Shell.update.
  rewrite Hm, Hw. simpl. now rewrite Nat.eqb_refl.
Qed.

Lemma run_listener_single a w l :
  Shell.windows a = [w] ->
  Shell.mainWindow a = Some (Shell.id w) ->
  Shell.run_listener a l =
  Shell.record (fst (Shell.reaction w l))
    (Shell.set_windows [snd (Shell.reaction w l)] a).
Proof.
  intros Hw Hm. destruct l; simpl.
  - now apply method_single.
  - unfold Shell.isMaximized. rewrite Hm, Hw. simpl. rewrite Nat.eqb_refl.
    destruct (Shell.maximized w); now apply method_single.
  - now apply method_single.
Qed.

Lemma reaction_id w l : Shell.id (snd (Shell.reaction w l)) = Shell.id w.
Proof. destruct l; simpl; trivial. now destruct (Shell.maximized w). Qed.

Lemma reaction_throws w l : Shell.throws (fst (Shell.reaction w l)) = false.
Proof. destruct l; simpl; trivial. now destruct (Shell.maximized w). Qed.

Lemma reactions_id ls : forall w,
  Shell.id (snd (Shell.reactions w ls)) = Shell.id w.
Proof.
  induction ls as [|l ls IH]; intros w; simpl; trivial.
  destruct (Shell.reaction w l) as [c w1] eqn:E.
  specialize (IH w1). destruct (Shell.reactions w1 ls) as [cs wn]. simpl in *.
  rewrite IH. change w1 with (snd (c, w1)). rewrite <- E. apply reaction_id.
Qed.

Lemma reactions_throws ls : forall w,
  existsb Shell.throws (fst (Shell.reactions w ls)) = false.
Proof.
  induction ls as [|l ls IH]; intros w; simpl; trivial.
  destruct (Shell.reaction w l) as [c w1] eqn:E.
  specialize (IH w1). destruct (Shell.reactions w1 ls) as [cs wn]. simpl in *.
  rewrite IH. change c with (fst (c, w1)). rewrite <- E.
  now rewrite reaction_throws.
Qed.

(** The listeners of one message, run on the one open window. *)
Lemma fold_single ls : forall a w,
  Shell.windows a = [w] ->
  Shell.mainWindow a = Some (Shell.id w) ->
  fold_left Shell.run_listener ls a =
  {| Shell.platform := Shell.platform a; Shell.ready := Shell.ready a;
     Shell.windows := [snd (Shell.reactions w ls)];
     Shell.mainWindow := Shell.mainWindow a; Shell.made := Shell.made a;
     Shell.on_channel := Shell.on_channel a;
     Shell.log := (Shell.log a ++ fst (Shell.reactions w ls))%list;
     Shell.has_quit := Shell.has_quit a |}.
Proof.
  induction ls as [|l ls IH]; intros a w Hw Hm.
  - simpl. rewrite app_nil_r. destruct a. simpl in *. now subst.
  - cbn [fold_left]. rewrite (run_listener_single a w l Hw Hm).
    rewrite (IH _ (snd (Shell.reaction w l)));
      [|reflexivity|simpl; now rewrite reaction_id].
    simpl. destruct (Shell.reaction w l) as [c w1]. simpl.
    destruct (Shell.reactions w1 ls) as [cs wn]. simpl.
    now rewrite <- app_assoc.
Qed.

Lemma existsb_throws_app a b :
  existsb Shell.throws a = false -> existsb Shell.throws b = false ->
  existsb Shell.throws (a ++ b) = false.
Proof. intros Ha Hb. now rewrite existsb_app, Ha, Hb. Qed.

Lemma registered_made_pos n channel l :
  In (channel, l)
    [("minimize-window", Shell.on_minimize);
     ("maximize-window", Shell.on_maximize);
     ("close-window", Shell.on_close)] ->
  1 <= n -> In (channel, l) (Shell.registered n).
Proof.
  intros Hin Hn. destruct n as [|n]; [lia|].
  simpl. apply in_app_iff. now right.
Qed.

Lemma step_consistent a e :
  Shell.consistent a -> Shell.consistent (Shell.step a e).
Proof.
  intros Hc. unfold Shell.step.
  destruct (Shell.has_quit a) eqn:Hq; trivial.
  destruct Hc as (Hreg & Hlog & Hr0 & Hr1 & Hquit & Hnd & Hwin).
  destruct e as [| |channel].
  - (* Ready *)
    destruct (Shell.ready a) eqn:Er;
      [unfold Shell.consistent; rewrite Er; tauto|].
    specialize (Hr0 eq_refl).
    destruct (Shell.windows a) as [|w [|w' ws]] eqn:Ew;
      [|destruct Hwin as (Hid & _); lia|destruct Hwin].
    unfold Shell.consistent, Shell.createWindow. simpl.
    rewrite Ew, Hr0, Hreg, Hr0, Hq. simpl.
    repeat split; try discriminate; try lia.
    now apply existsb_throws_app.
  - (* Activate *)
    destruct (Shell.ready a) eqn:Er;
      [|unfold Shell.consistent; rewrite Er; tauto].
    destruct (Shell.windows a) as [|w ws] eqn:Ew;
      [|unfold Shell.consistent; rewrite Er, Ew; tauto].
    specialize (Hr1 eq_refl).
    destruct (Shell.not_darwin (Shell.platform a)) eqn:Ep.
    + destruct (Hnd eq_refl) as [_ Hmust].
      rewrite (Hmust eq_refl eq_refl) in Hq. discriminate.
    + unfold Shell.consistent, Shell.createWindow. simpl.
      rewrite Ew, Er, Hreg, Hq, Ep. simpl.
      repeat split; try discriminate; try lia.
      now apply existsb_throws_app.
  - (* Message *)
    destruct (Shell.windows a) as [|w [|w' ws]] eqn:Ew;
      [unfold Shell.consistent; rewrite Ew; tauto | | destruct Hwin].
    destruct Hwin as (Hid & Hm & Hcl).
    unfold Shell.dispatch. rewrite (fold_single _ a w Ew Hm).
    set (ls := map snd _).
    pose proof (reactions_id ls w) as Hrid.
    pose proof (reactions_throws ls w) as Hrth.
    destruct (Shell.reactions w ls) as [cs wn]. simpl in Hrid, Hrth.
    unfold Shell.reap. simpl.
    destruct (Shell.closing wn) eqn:Ecl; simpl.
    + unfold Shell.window_all_closed. simpl.
      destruct (Shell.not_darwin (Shell.platform a)) eqn:Ep;
        unfold Shell.consistent; simpl; rewrite ?Ep.
      * repeat split; trivial; try lia; try (now apply Hnd).
        apply existsb_throws_app; [now apply existsb_throws_app|reflexivity].
      * repeat split; trivial; try lia; try discriminate.
        now apply existsb_throws_app.
    + unfold Shell.consistent. simpl.
      repeat split; trivial; try lia; try congruence.
      * now apply existsb_throws_app.
      * now apply Hnd.
Qed.

Lemma run_consistent p es : Shell.consistent (Shell.run p es).
Proof.
  unfold Shell.run. induction es as [|e es IH] using rev_ind.
  - unfold Shell.consistent. simpl.
    repeat split; trivial; try discriminate; lia.
  - rewrite fold_left_app. simpl. now apply step_consistent.
Qed.

Lemma repeat_snoc A (x : A) n : (repeat x n ++ [x])%list = repeat x (S n).
Proof. simpl. now rewrite repeat_cons. Qed.

(** Every [createWindow] adds one listener to each channel. *)
Lemma registered_on channel l n :
  In (channel, l)
    [("minimize-window", Shell.on_minimize);
     ("maximize-window", Shell.on_maximize);
     ("close-window", Shell.on_close)] ->
  map snd
    (filter (fun cl => (fst cl =? channel)%string) (Shell.registered n)) =
  repeat l n.
Proof.
  intros Hin. induction n as [|n IH]; trivial.
  cbn [Shell.registered]. rewrite filter_app, map_app, IH, <- repeat_snoc.
  f_equal.
  destruct Hin as [[= <- <-]|[[= <- <-]|[[= <- <-]|[]]]]; reflexivity.
Qed.

Lemma reactions_minimize n : forall w,
  let r := Shell.reactions w (repeat Shell.on_minimize n) in
  fst r = repeat (Shell.minimize (Shell.id w)) n /\
  Shell.closing (snd r) = Shell.closing w.
Proof.
  induction n as [|n IH]; intros w; simpl; [tauto|].
  specialize (IH (Shell.set_minimized w)). cbv zeta in IH.
  destruct (Shell.reactions (Shell.set_minimized w)
              (repeat Shell.on_minimize n)) as [cs wn].
  simpl in *. destruct IH as [-> ->]. tauto.
Qed.

Lemma reactions_maximize n : forall w,
  let r := Shell.reactions w (repeat Shell.on_maximize n) in
  Shell.maximized (snd r) = xorb (Shell.maximized w) (Nat.odd n) /\
  Shell.closing (snd r) = Shell.closing w.
Proof.
  induction n as [|n IH]; intros w.
  - simpl. now rewrite xorb_false_r.
  - cbn [repeat Shell.reactions]. cbv zeta.
    rewrite Nat.odd_succ, <- Nat.negb_odd.
    destruct (Shell.maximized w) eqn:Em; cbn [Shell.reaction]; rewrite Em.
    + specialize (IH (Shell.set_maximized false w)). cbv zeta in IH.
      destruct (Shell.reactions (Shell.set_maximized false w)
                  (repeat Shell.on_maximize n)) as [cs wn].
      simpl in *. destruct IH as [-> ->].
      split; trivial; now destruct (Nat.odd n).
    + specialize (IH (Shell.set_maximized true w)). cbv zeta in IH.
      destruct (Shell.reactions (Shell.set_maximized true w)
                  (repeat Shell.on_maximize n)) as [cs wn].
      simpl in *. destruct IH as [-> ->].
      split; trivial; now destruct (Nat.odd n).
Qed.

(** A message that closes nothing, taken by the one open window. *)
Lemma message_single a w channel l :
  Shell.consistent a ->
  Shell.windows a = [w] ->
  In (channel, l)
    [("minimize-window", Shell.on_minimize);
     ("maximize-window", Shell.on_maximize)] ->
  let r := Shell.reactions w (repeat l (Shell.made a)) in
  Shell.windows (Shell.step a (Shell.Message channel)) = [snd r] /\
  Shell.log (Shell.step a (Shell.Message channel)) =
    (Shell.log a ++ fst r)%list.
Proof.
  intros Hc Hw Hin r.
  destruct Hc as (Hreg & _ & _ & _ & Hquit & _ & Hwin).
  rewrite Hw in Hwin. destruct Hwin as (_ & Hm & Hcl).
  assert (Hq : Shell.has_quit a = false).
  { destruct (Shell.has_quit a); trivial.
    specialize (Hquit eq_refl). congruence. }
  assert (Hclosing : Shell.closing (snd r) = false).
  { subst r. destruct Hin as [[= _ <-]|[[= _ <-]|[]]].
    - destruct (reactions_minimize (Shell.made a) w) as [_ ->]. exact Hcl.
    - destruct (reactions_maximize (Shell.made a) w) as [_ ->]. exact Hcl. }
  unfold Shell.step. rewrite Hq, Hw. unfold Shell.dispatch.
  rewrite Hreg, (registered_on channel l);
    [|destruct Hin as [H|[H|[]]]; rewrite <- H; simpl; auto].
  rewrite (fold_single _ a w Hw Hm). fold r.
  unfold Shell.reap. simpl. rewrite Hclosing. simpl. auto.
Qed.

(** At most one window is open at any time, whatever the order of [Ready],
    ['activate'] and the messages of the window controls; [mainWindow] is
    that window; and no listener ever calls a method of a window that is
    gone or of [undefined]. *)
Theorem shell_keeps_one_window (p : Shell.Platform) (es : list Shell.Event) :
  let a := Shell.run p es in
  length (Shell.windows a) <= 1 /\
  (forall w,
     In w (Shell.windows a) ->
     Shell.mainWindow a = Some (Shell.id w) /\ S (Shell.id w) = Shell.made a) /\
  existsb Shell.throws (Shell.log a) = false /\
  (Shell.has_quit a = true -> Shell.windows a = []).
Proof.
  intros a. subst a.
  destruct (run_consistent p es) as (_ & Hlog & _ & _ & Hquit & _ & Hwin).
  destruct (Shell.windows (Shell.run p es)) as [|w [|w' ws]];
    [| |destruct Hwin].
  - split; [simpl; lia|]. split; [intros w []|]. now split.
  - destruct Hwin as (Hid & Hm & _).
    split; [simpl; lia|]. split; [intros w0 [<-|[]]; auto|]. now split.
Qed.

(** The listeners of the window controls pile up: [createWindow] registers
    them anew for every window it makes and nothing removes them, so a
    message runs its listener once per window made so far.  With [n] windows
    made, one 'minimize-window' calls [minimize] [n] times, and one
    'maximize-window' toggles [n] times: it changes the window when [n] is
    odd and leaves it as it was when [n] is even. *)
Theorem shell_listeners_pile_up
    (p : Shell.Platform) (es : list Shell.Event) (w : Shell.BrowserWindow) :
  Shell.windows (Shell.run p es) = [w] ->
  let a := Shell.run p es in
  Shell.on_channel a = Shell.registered (Shell.made a) /\
  length (Shell.on_channel a) = 3 * Shell.made a /\
  Shell.log (Shell.step a (Shell.Message "minimize-window")) =
    (Shell.log a ++ repeat (Shell.minimize (Shell.id w)) (Shell.made a))%list /\
  map Shell.maximized
    (Shell.windows (Shell.step a (Shell.Message "maximize-window"))) =
    [xorb (Shell.maximized w) (Nat.odd (Shell.made a))].
Proof.
  intros Hw a. subst a.
  pose proof (run_consistent p es) as Hc.
  assert (Hreg : Shell.on_channel (Shell.run p es) =
                 Shell.registered (Shell.made (Shell.run p es)))
    by (now destruct Hc).
  split; [exact Hreg|]. split; [|split].
  - rewrite Hreg. generalize (Shell.made (Shell.run p es)).
    induction n as [|n IH]; trivial.
    cbn [Shell.registered]. rewrite length_app, IH. simpl. lia.
  - destruct (message_single _ w "minimize-window" Shell.on_minimize Hc Hw)
      as [_ ->]; [simpl; auto|].
    now destruct (reactions_minimize (Shell.made (Shell.run p es)) w)
      as [-> _].
  - destruct (message_single _ w "maximize-window" Shell.on_maximize Hc Hw)
      as [-> _]; [simpl; auto|].
    simpl.
    now destruct (reactions_maximize (Shell.made (Shell.run p es)) w)
      as [-> _].
Qed.

Lemma method_platform call effect a :
  Shell.platform (Shell.method call effect a) = Shell.platform a.
Proof.
  unfold Shell.method. destruct (Shell.mainWindow a) as [w|]; trivial.
  now destruct (Shell.is_open w a).
Qed.

Lemma listeners_platform ls : forall a,
  Shell.platform (fold_left Shell.run_listener ls a) = Shell.platform a.
Proof.
  induction ls as [|l ls IH]; intros a; simpl; trivial.
  rewrite IH. destruct l; simpl; try apply method_platform.
  destruct (Shell.isMaximized a) as [[|]|]; apply method_platform.
Qed.

Lemma step_platform a e :
  Shell.platform (Shell.step a e) = Shell.platform a.
Proof.
  unfold Shell.step. destruct (Shell.has_quit a); trivial.
  destruct e as [| |channel].
  - now destruct (Shell.ready a).
  - destruct (Shell.ready a); trivial. now destruct (Shell.windows a).
  - destruct (Shell.windows a) as [|w ws]; trivial.
    unfold Shell.dispatch, Shell.reap, Shell.window_all_closed.
    set (b := fold_left Shell.run_listener _ a).
    assert (Hb : Shell.platform b = Shell.platform a)
      by apply listeners_platform.
    destruct (filter _ (Shell.windows b)); simpl; trivial.
    destruct (existsb Shell.closing (Shell.windows b)); simpl; trivial.
    now destruct (Shell.not_darwin (Shell.platform b)); simpl.
Qed.

Lemma run_platform p es : Shell.platform (Shell.run p es) = p.
Proof.
  unfold Shell.run. induction es as [|e es IH] using rev_ind; trivial.
  rewrite fold_left_app. simpl. now rewrite step_platform.
Qed.

Lemma reactions_close n : forall w,
  let r := Shell.reactions w (repeat Shell.on_close n) in
  fst r = repeat (Shell.close (Shell.id w)) n /\
  Shell.closing (snd r) = (Shell.closing w || negb (n =? 0)%nat)%bool.
Proof.
  induction n as [|n IH]; intros w; simpl; [now rewrite orb_false_r|].
  specialize (IH (Shell.set_closing w)). cbv zeta in IH.
  destruct (Shell.reactions (Shell.set_closing w)
              (repeat Shell.on_close n)) as [cs wn].
  simpl in *. destruct IH as [-> ->]. now rewrite orb_true_r.
Qed.

(** The message that closes the one open window. *)
Lemma close_single a w :
  Shell.consistent a ->
  Shell.windows a = [w] ->
  let b := Shell.step a (Shell.Message "close-window") in
  Shell.windows b = [] /\
  Shell.has_quit b = Shell.not_darwin (Shell.platform a) /\
  Shell.ready b = true /\
  Shell.made b = Shell.made a /\
  Shell.log b =
    (Shell.log a ++ repeat (Shell.close (Shell.id w)) (Shell.made a) ++
     (if Shell.not_darwin (Shell.platform a) then [Shell.quit] else []))%list.
Proof.
  intros Hc Hw b. subst b.
  destruct Hc as (Hreg & _ & Hr0 & _ & Hquit & _ & Hwin).
  rewrite Hw in Hwin. destruct Hwin as (Hid & Hm & Hcl).
  assert (Hq : Shell.has_quit a = false).
  { destruct (Shell.has_quit a); trivial.
    specialize (Hquit eq_refl). congruence. }
  assert (Hr : Shell.ready a = true).
  { destruct (Shell.ready a); trivial. specialize (Hr0 eq_refl). lia. }
  unfold Shell.step. rewrite Hq, Hw. unfold Shell.dispatch.
  rewrite Hreg, (registered_on "close-window" Shell.on_close);
    [|simpl; auto].
  rewrite (fold_single _ a w Hw Hm). rewrite <- Hid.
  destruct (reactions_close (S (Shell.id w)) w) as [Hcalls Hclosing].
  rewrite orb_true_r in Hclosing.
  destruct (Shell.reactions w (repeat Shell.on_close (S (Shell.id w))))
    as [cs wn].
  cbn [fst snd] in Hcalls, Hclosing. subst cs.
  unfold Shell.reap, Shell.window_all_closed. cbn -[repeat].
  rewrite Hclosing. cbn -[repeat].
  destruct (Shell.not_darwin (Shell.platform a)); cbn -[repeat];
    rewrite ?Hq, ?Hr, ?app_nil_r, <- ?app_assoc; auto.
Qed.

(** Off macOS the app opens one window in its life: closing it quits the
    app, and ['activate'] never makes another.  Each control therefore has
    one listener: 'maximize-window' toggles the window, 'minimize-window'
    calls [minimize] once. *)
Theorem shell_one_window_off_darwin
    (p : Shell.Platform) (es : list Shell.Event) :
  Shell.not_darwin p = true ->
  let a := Shell.run p es in
  Shell.made a <= 1 /\
  (Shell.ready a = true -> Shell.windows a = [] -> Shell.has_quit a = true) /\
  (forall w,
     Shell.windows a = [w] ->
     map Shell.maximized
       (Shell.windows (Shell.step a (Shell.Message "maximize-window"))) =
       [negb (Shell.maximized w)] /\
     Shell.log (Shell.step a (Shell.Message "minimize-window")) =
       (Shell.log a ++ [Shell.minimize (Shell.id w)])%list /\
     Shell.has_quit (Shell.step a (Shell.Message "close-window")) = true).
Proof.
  intros Hp a. subst a.
  pose proof (run_consistent p es) as Hc.
  pose proof Hc as (_ & _ & _ & Hr1 & _ & Hnd & Hwin).
  rewrite run_platform in Hnd. destruct (Hnd Hp) as [Hmade Hmust].
  split; [exact Hmade|]. split; [exact Hmust|].
  intros w Hw. rewrite Hw in Hwin. destruct Hwin as (Hid & _ & _).
  assert (H1 : Shell.made (Shell.run p es) = 1) by lia.
  split; [|split].
  - destruct (message_single _ w "maximize-window" Shell.on_maximize Hc Hw)
      as [-> _]; [simpl; auto|].
    simpl.
    destruct (reactions_maximize (Shell.made (Shell.run p es)) w) as [-> _].
    rewrite H1. simpl. now destruct (Shell.maximized w).
  - destruct (message_single _ w "minimize-window" Shell.on_minimize Hc Hw)
      as [_ ->]; [simpl; auto|].
    destruct (reactions_minimize (Shell.made (Shell.run p es)) w) as [-> _].
    now rewrite H1.
  - destruct (close_single _ w Hc Hw) as (_ & -> & _).
    now rewrite run_platform.
Qed.

(** On macOS closing the window leaves the app running without a window, and
    the next ['activate'] makes a new one, unmaximized, with one more
    listener on each channel than the window before it had. *)
Theorem shell_reopens_on_darwin
    (es : list Shell.Event) (w : Shell.BrowserWindow) :
  Shell.windows (Shell.run Shell.darwin es) = [w] ->
  let a := Shell.run Shell.darwin es in
  let closed := Shell.step a (Shell.Message "close-window") in
  let reopened := Shell.step closed Shell.Activate in
  Shell.windows closed = [] /\
  Shell.has_quit closed = false /\
  Shell.windows reopened =
    [{| Shell.id := Shell.made a; Shell.maximized := false;
        Shell.minimized := false; Shell.closing := false |}] /\
  Shell.mainWindow reopened = Some (Shell.made a) /\
  Shell.made reopened = S (Shell.made a) /\
  Shell.on_channel reopened = Shell.registered (S (Shell.made a)).
Proof.
  intros Hw a closed reopened. subst a closed reopened.
  pose proof (run_consistent Shell.darwin es) as Hc.
  destruct (close_single _ w Hc Hw) as (Hwin & Hq & Hr & Hmade & _).
  rewrite run_platform in Hq. simpl in Hq.
  pose proof (step_consistent _ (Shell.Message "close-window") Hc)
    as (Hreg & _).
  split; [exact Hwin|]. split; [exact Hq|].
  unfold Shell.step at 1 3 5 7. rewrite Hq, Hr, Hwin.
  unfold Shell.createWindow. simpl. rewrite Hwin, Hmade, Hreg, Hmade.
  repeat split.
Qed.

(** Whenever a window is open, every function that [preload.js] exposes
    reaches the main process: the three window controls send on a channel
    that has a listener, the three other calls invoke a channel that
    [main.js] handles. *)
Theorem preload_api_is_served
    (p : Shell.Platform) (es : list Shell.Event) :
  Shell.windows (Shell.run p es) <> [] ->
  forallb (Shell.served (Shell.run p es)) Shell.electronAPI = true.
Proof.
  intros Hne.
  destruct (run_consistent p es) as (Hreg & _ & _ & _ & _ & _ & Hwin).
  destruct (Shell.windows (Shell.run p es)) as [|w [|w' ws]];
    [congruence| |destruct Hwin].
  destruct Hwin as (Hid & _).
  unfold Shell.electronAPI, Shell.served. rewrite Hreg, <- Hid.
  cbn [forallb Shell.registered]. rewrite !existsb_app.
  cbn. now rewrite !orb_true_r.
Qed.

(** * Examples on a concrete runtime

    The codec is [Zlib.deflate], which writes for the payload of these
    examples the bytes that zlib writes; the validation of ports is
    [Node.validatePort]. *)

Lemma compressData_deterministic_round_trip_witness :
  Encoder.compressData Zlib.deflate (list_byte_of_string "print(1)") =
    ([], inr [x78; x9c; x2b; x28; xca; xcc; x2b; xd1; x30; xd4; x04; x00;
              x0e; x15; x02; xb0]) /\
  Zlib.inflate
    [x78; x9c; x2b; x28; xca; xcc; x2b; xd1; x30; xd4; x04; x00; x0e; x15;
     x02; xb0] = inr (list_byte_of_string "print(1)").
Proof.
  destruct (compressData_deterministic_round_trip
              (list_byte_of_string "print(1)"))
    as ((compressed & Hc & _ & Hi) & _).
  assert (Hb : compressed =
               [x78; x9c; x2b; x28; xca; xcc; x2b; xd1; x30; xd4; x04; x00;
                x0e; x15; x02; xb0]).
  { vm_compute in Hc. now injection Hc as <-. }
  rewrite Hb in Hc, Hi. split; [exact Hc | exact Hi].
Defined.

Lemma send_failure_destroys_socket_first_witness :
  let s' :=
    Send._connectAndSendInternal Zlib.deflate Node.validatePort
      (JS.Str "NULL") "8392"
      [Send.Sock (Net.Error "connect ECONNREFUSED 127.0.0.1:8392")] in
  Send.outer s' =
    JS.Fulfilled
      "Failed to connect or send on port 8392: connect ECONNREFUSED 127.0.0.1:8392" /\
  Net.destroyed (Send.client s') = true.
Proof.
  destruct (send_failure_destroys_socket_first Zlib.deflate Node.validatePort
              (JS.Str "NULL") "8392" []
              (Send.Sock (Net.Error "connect ECONNREFUSED 127.0.0.1:8392"))
              "connect ECONNREFUSED 127.0.0.1:8392" eq_refl eq_refl)
    as (_ & Ho & _ & Hd & _).
  split; [exact Ho | exact Hd].
Defined.

Lemma send_flushed_reports_port_witness :
  Send.outer
    (Send._connectAndSendInternal Zlib.deflate Node.validatePort
       (JS.Str "print(1)") "8392"
       [Send.Sock Net.Connect; Send.DeflateDone; Send.WriteFlushed]) =
  JS.Fulfilled "Successfully executed script on port: 8392".
Proof.
  destruct (send_flushed_reports_port Zlib.deflate Node.validatePort
              (JS.Str "print(1)") "8392"
              [Send.Sock Net.Connect; Send.DeflateDone] _ eq_refl)
    as (Ho & _).
  exact Ho.
Defined.

(** C5, as stated, fails: 16 bytes are sent, and the report that resolves
    the promise does not say so; the console does. *)
Lemma send_report_omits_byte_count :
  let s :=
    Send._connectAndSendInternal Zlib.deflate Node.validatePort
      (JS.Str "print(1)") "8392"
      [Send.Sock Net.Connect; Send.DeflateDone; Send.WriteFlushed] in
  Send.outer s = JS.Fulfilled "Successfully executed script on port: 8392" /\
  map (@length byte) (Net.written (Send.client s)) = [16] /\
  JS.includes "Successfully executed script on port: 8392" (JS.show 16) = false /\
  In (Send.console_log "Script sent to port 8392 (16 bytes)") (Send.effects s).
Proof.
  cbv zeta. split; [|split; [|split]]; try (vm_compute; reflexivity).
  vm_compute. tauto.
Qed.

Lemma send_sentinel_only_connects_witness :
  let send code :=
    Send._connectAndSendInternal Zlib.deflate Node.validatePort code "8392" in
  Send.outer (send (JS.Str "NULL") []) = JS.Pending /\
  Send.outer (send (JS.Str "NULL") [Send.Sock Net.Connect]) =
    JS.Fulfilled
      "Successfully connected to Opiumware on port: 8392 (no script sent)" /\
  Net.ended (Send.client (send (JS.Str "NULL") [Send.Sock Net.Connect])) =
    true /\
  Net.connecting (Send.client (send (JS.Str "NULL") [Send.Sock Net.Connect])) =
    Some "8392" /\
  Net.written (Send.client (send (JS.Str "NULL") [Send.Sock Net.Connect])) =
    [] /\
  Send.outer (send (JS.Str "") [Send.Sock Net.Connect]) =
    JS.Fulfilled
      "Successfully connected to Opiumware on port: 8392 (no script sent)".
Proof.
  cbv zeta beta.
  destruct (send_sentinel_only_connects Zlib.deflate Node.validatePort
              (JS.Str "NULL") "8392" [] (or_introl eq_refl))
    as (_ & _ & Hwaits & _).
  destruct (Hwaits eq_refl) as (_ & Hpending & _).
  destruct (Hpending eq_refl) as (_ & Ho0 & _).
  destruct (send_sentinel_only_connects Zlib.deflate Node.validatePort
              (JS.Str "NULL") "8392" [Send.Sock Net.Connect]
              (or_introl eq_refl))
    as (_ & Hw & Hport & _).
  destruct (Hport eq_refl) as (Hc & _ & Hconnects).
  destruct (Hconnects eq_refl) as (_ & Ho & He & _).
  destruct (send_sentinel_only_connects Zlib.deflate Node.validatePort
              (JS.Str "") "8392" [Send.Sock Net.Connect]
              (or_intror eq_refl))
    as (_ & _ & Hempty & _).
  destruct (Hempty eq_refl) as (_ & _ & Hconnects').
  destruct (Hconnects' eq_refl) as (_ & Ho' & _).
  repeat split; assumption.
Defined.



Lemma check_port_status_first_event_decides_witness :
  Probe.result
    (Probe.check_port_status Node.validatePort "8392"
       [Net.Error "connect ECONNREFUSED 127.0.0.1:8392"; Net.Connect]) =
  JS.Fulfilled false /\
  Probe.result (Probe.check_port_status Node.validatePort "70000" []) =
  JS.Rejected
    "Port should be >= 0 and < 65536. Received type string ('70000')." /\
  Net.connecting
    (Probe.client (Probe.check_port_status Node.validatePort "70000" [])) =
  None.
Proof.
  split.
  - destruct (check_port_status_first_event_decides Node.validatePort "8392"
                [Net.Error "connect ECONNREFUSED 127.0.0.1:8392"; Net.Connect])
      as (Hvalid & _).
    destruct (Hvalid eq_refl) as (Hr & _). exact Hr.
  - destruct (check_port_status_first_event_decides Node.validatePort "70000"
                [])
      as (_ & Hrefused).
    destruct (Hrefused _ eq_refl) as (Hr & _ & Hc & _).
    split; [exact Hr | exact Hc].
Defined.

Lemma check_port_status_settles_once_or_rejects_witness :
  Probe.result
    (Probe.check_port_status Node.validatePort "70000" [Net.Timeout]) =
  JS.Rejected
    "Port should be >= 0 and < 65536. Received type string ('70000').".
Proof.
  exact (proj2 (check_port_status_settles_once_or_rejects Node.validatePort
                  "70000" [Net.Timeout]) _ eq_refl).
Defined.


(** Only the fourth port has a listener: the scan answers it, and does not
    call the fifth and the sixth. *)
Lemma auto_attach_first_live_port_witness :
  let net port :=
    if (port =? "8395")%string then [Send.Sock Net.Connect]
    else [Send.Sock (Net.Error "connect ECONNREFUSED")] in
  let scan := Scanner.auto_attach Zlib.deflate Node.validatePort net in
  Scanner.answer scan = JS.Fulfilled "8395" /\
  Scanner.calls scan =
    [(JS.Str "NULL", "8392"); (JS.Str "NULL", "8393");
     (JS.Str "NULL", "8394"); (JS.Str "NULL", "8395")].
Proof.
  intros net scan.
  destruct (auto_attach_first_live_port Zlib.deflate Node.validatePort net)
    as (_ & _ & Hfirst & _).
  apply (Hfirst ["8392"; "8393"; "8394"] "8395" ["8396"; "8397"] eq_refl).
  - intros p [<-|[<-|[<-|[]]]]; eexists; reflexivity.
  - reflexivity.
Defined.

(** No port has a listener: the scan calls all six and answers the
    sentinel. *)
Example auto_attach_no_live_port :
  let scan :=
    Scanner.auto_attach Zlib.deflate Node.validatePort
      (fun _ => [Send.Sock (Net.Error "connect ECONNREFUSED")]) in
  Scanner.answer scan = JS.Fulfilled "Failed to connect on all ports" /\
  map snd (Scanner.calls scan) = Scanner.PORTS.
Proof. split; reflexivity. Qed.

(** The same refused port, given to the send: a failure report. *)
Example send_refused_port :
  Send.outer
    (Send._connectAndSendInternal Zlib.deflate Node.validatePort
       (JS.Str "NULL") "70000" []) =
  JS.Fulfilled
    "Failed to connect or send on port 70000: Port should be >= 0 and < 65536. Received type string ('70000').".
Proof. reflexivity. Qed.

Lemma send_releases_socket_witness :
  let s :=
    Send._connectAndSendInternal Zlib.deflate Node.validatePort
      (JS.Str "print(1)") "8392"
      [Send.Sock Net.Connect; Send.DeflateDone; Send.WriteFlushed] in
  Net.ended (Send.client s) = true /\ Observe.released s = true.
Proof.
  destruct (send_releases_socket Zlib.deflate Node.validatePort
              (JS.Str "print(1)") "8392"
              [Send.Sock Net.Connect; Send.DeflateDone; Send.WriteFlushed]
              "Successfully executed script on port: 8392" eq_refl)
    as [Hr _].
  split; [reflexivity | exact Hr].
Defined.

Lemma send_sentinel_decided_by_first_event_witness :
  Send.outer
    (Send._connectAndSendInternal Zlib.deflate Node.validatePort
       JS.Undefined "8392"
       [Send.WriteFlushed; Send.Sock Net.Timeout; Send.Sock Net.Connect]) =
  JS.Fulfilled
    "Failed to connect or send on port 8392: Connection attempt to port 8392 timed out.".
Proof.
  exact (send_sentinel_decided_by_first_event Zlib.deflate
           Node.validatePort JS.Undefined "8392"
           [Send.WriteFlushed; Send.Sock Net.Timeout; Send.Sock Net.Connect]
           (or_intror eq_refl)).
Defined.


Lemma check_port_status_ignores_repeated_kind_witness :
  Probe.effects
    (Probe.check_port_status Node.validatePort "8392"
       [Net.Error "connect ECONNREFUSED"; Net.Error "connect ECONNREFUSED"]) =
  [Probe.socket_destroy; Probe.resolve_call false].
Proof.
  exact (f_equal Probe.effects
           (check_port_status_ignores_repeated_kind Node.validatePort "8392"
              [Net.Error "connect ECONNREFUSED"]
              (Net.Error "connect ECONNREFUSED") (or_introl eq_refl))).
Defined.

(** The second window of the app on macOS: its maximize control runs two
    listeners and leaves the window as it was; its minimize control calls
    [minimize] twice. *)
Lemma shell_listeners_pile_up_witness :
  let a :=
    Shell.run Shell.darwin
      [Shell.Ready; Shell.Message "close-window"; Shell.Activate] in
  Shell.made a = 2 /\
  map Shell.maximized
    (Shell.windows (Shell.step a (Shell.Message "maximize-window"))) =
    [false] /\
  Shell.log (Shell.step a (Shell.Message "minimize-window")) =
    (Shell.log a ++ [Shell.minimize 1; Shell.minimize 1])%list.
Proof.
  destruct (shell_listeners_pile_up Shell.darwin
              [Shell.Ready; Shell.Message "close-window"; Shell.Activate]
              {| Shell.id := 1; Shell.maximized := false;
                 Shell.minimized := false; Shell.closing := false |}
              eq_refl)
    as (_ & _ & Hmin & Hmax).
  split; [reflexivity|]. split; [exact Hmax | exact Hmin].
Defined.

Lemma shell_one_window_off_darwin_witness :
  Shell.has_quit
    (Shell.run Shell.win32 [Shell.Ready; Shell.Message "close-window"]) = true.
Proof.
  destruct (shell_one_window_off_darwin Shell.win32 [Shell.Ready] eq_refl)
    as (_ & _ & H).
  destruct (H {| Shell.id := 0; Shell.maximized := false;
                 Shell.minimized := false; Shell.closing := false |} eq_refl)
    as (_ & _ & Hq).
  exact Hq.
Defined.

Lemma shell_reopens_on_darwin_witness :
  Shell.made
    (Shell.run Shell.darwin
       [Shell.Ready; Shell.Message "close-window"; Shell.Activate]) = 2.
Proof.
  destruct (shell_reopens_on_darwin [Shell.Ready]
              {| Shell.id := 0; Shell.maximized := false;
                 Shell.minimized := false; Shell.closing := false |} eq_refl)
    as (_ & _ & _ & _ & Hmade & _).
  exact Hmade.
Defined.

Lemma preload_api_is_served_witness :
  forallb (Shell.served (Shell.run Shell.linux [Shell.Ready]))
    Shell.electronAPI = true.
Proof.
  apply (preload_api_is_served Shell.linux [Shell.Ready]). discriminate.
Defined.
